(** * optcarrot-web: the presentation scheduler, the startup protocol and
      the input channel

    A shallow embedding of [src/index.ts] and [src/optcarrot.worker.ts].

    Numbers.  JavaScript numbers that carry time (the audio clock, buffer
    durations) and sample values are embedded as exact rationals [Q]: every
    operation the scheduler performs on them is one addition, one
    subtraction, one division or one comparison.  Integers (typed-array
    elements, key codes) are [Z].  Typed arrays are lists. *)

From Stdlib Require Import ZArith QArith Lqa Lia List Bool Sorted.
From Stdlib Require Import Strings.String Strings.Ascii DecimalString.
From stdpp Require Import base numbers list.
Import ListNotations.

(* ================================================================== *)
(** * Audio: [class NESAudio] of index.ts                              *)
(* ================================================================== *)

Module Audio.

Local Open Scope Q_scope.

(** An [Int16Array]: its elements, each in the signed 16-bit range. *)
Definition Int16Array := list Z.

Definition is_int16 (s : Z) : Prop := (-32768 <= s <= 32767)%Z.

(** [new Int16Array(bytes.buffer)] (worker, [audioBytes]): every two bytes,
    low byte first, are one two's-complement sample. A buffer of an odd
    number of bytes makes the constructor throw a [RangeError]: [None]. *)
Definition int16_of_bytes (lo hi : Z) : Z :=
  let u := (lo mod 256 + 256 * (hi mod 256))%Z in
  if (u <? 32768)%Z then u else (u - 65536)%Z.

Fixpoint Int16Array_of_bytes (bytes : list Z) : option Int16Array :=
  match bytes with
  | [] => Some []
  | [_] => None
  | lo :: hi :: rest =>
      match Int16Array_of_bytes rest with
      | Some samples => Some (int16_of_bytes lo hi :: samples)
      | None => None
      end
  end.

(** The buffer made by [context.createBuffer(1, length, sampleRate)]; its
    channel 0 is a [Float32Array]. *)
Record AudioBuffer := mkAudioBuffer {
  numberOfChannels : nat;
  buffer_length : nat;
  buffer_sampleRate : Q;
  channelData : list Q
}.

(** [buffer.duration]: length over sample rate, in seconds. *)
Definition duration (b : AudioBuffer) : Q :=
  inject_Z (Z.of_nat (buffer_length b)) / buffer_sampleRate b.

(** What a call of [push] leaves behind outside the object: a source started
    on the destination at a time, or a [console.warn] line. *)
Inductive Effect :=
| Start (when : Q) (buffer : AudioBuffer)
| Warn (text : string) (value : Q).

(** The part of the [AudioContext] that [push] reads. [currentTime] is moved
    by the platform, not by this program. *)
Record AudioContext := mkAudioContext {
  sampleRate : Q;
  currentTime : Q
}.

Record NESAudio := mkNESAudio {
  context : AudioContext;
  scheduledTime : Q
}.

(** [constructor()]: a context at 11050 Hz and a clock at 0. The context's
    own clock starts wherever the platform puts it. *)
Definition NESAudio_new (now : Q) : NESAudio :=
  {| context := {| sampleRate := 11050; currentTime := now |};
     scheduledTime := 0 |}.

Definition createBuffer (channels length : nat) (rate : Q) : AudioBuffer :=
  {| numberOfChannels := channels; buffer_length := length;
     buffer_sampleRate := rate; channelData := repeat 0 length |}.

(** The loop [bufferData[i] = input[i] / (2 << 15)]. A 16-bit sample over
    a power of two is a binary fraction that an element of a [Float32Array]
    holds exactly. *)
Definition sample_of (s : Z) : Q := inject_Z s / inject_Z (Z.shiftl 2 15).

Definition fill (input : Int16Array) (b : AudioBuffer) : AudioBuffer :=
  {| numberOfChannels := numberOfChannels b;
     buffer_length := buffer_length b;
     buffer_sampleRate := buffer_sampleRate b;
     channelData := map sample_of input |}.

(** [push(input)]. *)
Definition push (input : Int16Array) (a : NESAudio) : NESAudio * list Effect :=
  let buffer := createBuffer 1 (length input) (sampleRate (context a)) in
  let now := currentTime (context a) in
  let buffer := fill input buffer in
  if Qlt_le_dec now (scheduledTime a) then
    ({| context := context a;
        scheduledTime := scheduledTime a + duration buffer |},
     [Start (scheduledTime a) buffer])
  else
    ({| context := context a;
        scheduledTime := now + duration buffer |},
     [Warn "Audio buffer underrun :(" (scheduledTime a - now);
      Start now buffer]).

(** The platform moving the context's clock to [t]. *)
Definition at_time (t : Q) (a : NESAudio) : NESAudio :=
  {| context := {| sampleRate := sampleRate (context a); currentTime := t |};
     scheduledTime := scheduledTime a |}.

(** A delivery: the clock reads [t] when [push input] runs. *)
Definition deliver (a : NESAudio) (ev : Q * Int16Array) : NESAudio * list Effect :=
  push (snd ev) (at_time (fst ev) a).

(** A run of deliveries, with everything they left behind, in order. *)
Fixpoint deliveries (a : NESAudio) (evs : list (Q * Int16Array))
  : NESAudio * list Effect :=
  match evs with
  | [] => (a, [])
  | ev :: rest =>
      let '(a1, out1) := deliver a ev in
      let '(a2, out2) := deliveries a1 rest in
      (a2, out1 ++ out2)
  end.

Definition starts (out : list Effect) : list Q :=
  flat_map (fun e => match e with Start t _ => [t] | Warn _ _ => [] end) out.

Definition underruns (out : list Effect) : list Q :=
  flat_map (fun e => match e with Warn _ v => [v] | Start _ _ => [] end) out.


(** The stretch of the timeline each started source covers: from its start
    to its start plus the duration of its buffer. *)
Definition spans (out : list Effect) : list (Q * Q) :=
  flat_map (fun e => match e with
                     | Start t b => [(t, t + duration b)]
                     | Warn _ _ => []
                     end) out.

(** Deliveries that each come before the clock, for a clock at [clock] and a
    context at [rate]: an on-time segment moves the clock on by its
    duration. *)
Fixpoint ahead (clock rate : Q) (evs : list (Q * Int16Array)) : Prop :=
  match evs with
  | [] => True
  | (t, input) :: rest =>
      t < clock /\
      ahead (clock + inject_Z (Z.of_nat (length input)) / rate) rate rest
  end.

(** The sources a call started on the destination, with their start
    times, in order. *)
Definition sources (out : list Effect) : list (Q * AudioBuffer) :=
  flat_map (fun e => match e with
                     | Start t b => [(t, b)]
                     | Warn _ _ => []
                     end) out.


(** Each source of a list begins where the one before it ends. *)
Fixpoint back_to_back (from : Q) (l : list (Q * Q)) : Prop :=
  match l with
  | [] => True
  | (s, e) :: rest => s = from /\ back_to_back e rest
  end.

End Audio.

(* ================================================================== *)
(** * The page: startup parameters, progress display, bootstrap        *)
(* ================================================================== *)

Module Page.

Local Open Scope string_scope.

(** [url.searchParams]: the query's name/value pairs in order; a name may
    occur more than once. *)
Record URL := mkURL { searchParams : list (string * string) }.

(** [URLSearchParams.get]: the value of the first pair with that name, or
    [null]. *)
Fixpoint get (ps : list (string * string)) (name : string) : option string :=
  match ps with
  | [] => None
  | (k, v) :: rest => if String.eqb k name then Some v else get rest name
  end.

Record Options := mkOptions { opt : bool; headless : bool; rom : string }.

Definition deriveOptions (url : URL) : Options :=
  let enableOptRaw := get (searchParams url) "opt" in
  let headlessRaw := get (searchParams url) "headless" in
  let romRaw := get (searchParams url) "rom" in
  {| opt := match enableOptRaw with
            | None => true
            | Some v => String.eqb v "true"
            end;
     headless := match headlessRaw with
                 | None => false
                 | Some v => String.eqb v "true"
                 end;
     rom := match romRaw with
            | None => "Lan_Master.nes"
            | Some v => v
            end |}.

(** [padCodeFromCode]: [None] is the source's [null]. *)
Definition padCodeFromCode (code : string) : option Z :=
  if String.eqb code "KeyZ" then Some 0%Z
  else if String.eqb code "KeyX" then Some 1%Z
  else if String.eqb code "Enter" then Some 2%Z
  else if String.eqb code "Space" then Some 3%Z
  else if String.eqb code "ArrowUp" then Some 4%Z
  else if String.eqb code "ArrowDown" then Some 5%Z
  else if String.eqb code "ArrowLeft" then Some 6%Z
  else if String.eqb code "ArrowRight" then Some 7%Z
  else None.

(** [class LoadProgress]: the two elements it drives. *)
Record LoadProgress := mkLoadProgress {
  progress_max : Q;
  progress_value : Q;
  progress_hidden : bool;
  message_innerText : string;
  message_hidden : bool
}.

Definition log (text : string) (p : LoadProgress) : LoadProgress :=
  {| progress_max := progress_max p; progress_value := progress_value p;
     progress_hidden := progress_hidden p;
     message_innerText := text; message_hidden := message_hidden p |}.

Definition error (text : string) (p : LoadProgress) : LoadProgress :=
  {| progress_max := progress_max p; progress_value := progress_value p;
     progress_hidden := true;
     message_innerText := text; message_hidden := message_hidden p |}.

Definition setProgress (value : Q) (p : LoadProgress) : LoadProgress :=
  {| progress_max := progress_max p; progress_value := value;
     progress_hidden := progress_hidden p;
     message_innerText := message_innerText p;
     message_hidden := message_hidden p |}.

Definition hide (p : LoadProgress) : LoadProgress :=
  {| progress_max := progress_max p; progress_value := progress_value p;
     progress_hidden := true;
     message_innerText := message_innerText p; message_hidden := true |}.

(** What the script at the end of index.ts finds in its host. *)
Inductive Registration :=
| Registered (active : bool) (scope : string)
| Rejected (err : string).

Record Host := mkHost {
  serviceWorker_in_navigator : bool;
  registration : Registration;
  controller : bool;
  SharedArrayBuffer_defined : bool;
  location : URL
}.

(** What the script does besides driving the progress display. *)
Inductive Action :=
| ConsoleLog (text : string) (detail : string)
| Reload
| Play (url : URL).

(** The script from [if ("serviceWorker" in navigator)] on, for one load of
    the page. Of [play] it keeps the call and the first line written to the
    display; what [play] sets up is in [Player] and in the worker. *)
Definition bootstrap (h : Host) (p : LoadProgress) : LoadProgress * list Action :=
  if serviceWorker_in_navigator h then
    match registration h with
    | Registered active scope =>
        let logged := ConsoleLog "COOP/COEP Service Worker registered" scope in
        if active && negb (controller h) then
          (p, [logged; Reload])
        else if SharedArrayBuffer_defined h then
          (log "Initializing Optcarrot..." p, [logged; Play (location h)])
        else
          (error "Your browser does not support SharedArrayBuffer. Please use a modern browser like Chrome or Firefox." p,
           [logged])
    | Rejected err =>
        (p, [ConsoleLog "COOP/COEP Service Worker failed to register" err])
    end
  else
    (error "No Service Worker support" p, []).

Definition plays (acts : list Action) : list URL :=
  flat_map (fun a => match a with Play u => [u] | _ => [] end) acts.

(** The audio half of [play]: the checkbox, the lazily made scheduler and
    the [playAudio] callback handed to the worker. *)
Record Player := mkPlayer {
  audioEnabled : bool;
  nesAudio : option Audio.NESAudio
}.

Inductive Event :=
| Click (checked : bool)                      (* isAudioEnabledCheckbox.onclick *)
| PlayAudio (now : Q) (bytes : Audio.Int16Array)  (* the playAudio proxy *)
| Render (bytes : list Z).                    (* the render proxy *)

(** [now] is what any [AudioContext] reads as its [currentTime] when the
    callback runs. *)
Definition playAudio (now : Q) (bytes : Audio.Int16Array) (s : Player)
  : Player * list Audio.Effect :=
  if negb (audioEnabled s) then (s, [])
  else
    let a := match nesAudio s with
             | None => Audio.NESAudio_new now
             | Some a => Audio.at_time now a
             end in
    let '(a', out) := Audio.push bytes a in
    ({| audioEnabled := audioEnabled s; nesAudio := Some a' |}, out).

Definition handle (s : Player) (e : Event) : Player * list Audio.Effect :=
  match e with
  | Click checked => ({| audioEnabled := checked; nesAudio := nesAudio s |}, [])
  | PlayAudio now bytes => playAudio now bytes s
  | Render _ => (s, [])
  end.

(** [play] as it starts: the checkbox as found, no scheduler yet. *)
Definition Player_new (checked : bool) : Player :=
  {| audioEnabled := checked; nesAudio := None |}.

Fixpoint handles (s : Player) (evs : list Event) : Player :=
  match evs with
  | [] => s
  | e :: rest => handles (fst (handle s e)) rest
  end.

(** The PlaybackClock of a player, once its scheduler exists. *)
Definition clock (s : Player) : option Q :=
  match nesAudio s with
  | None => None
  | Some a => Some (Audio.scheduledTime a)
  end.

(** What a run of events leaves behind on the audio side, in order. *)
Fixpoint handles_out (s : Player) (evs : list Event) : list Audio.Effect :=
  match evs with
  | [] => []
  | e :: rest => (snd (handle s e) ++ handles_out (fst (handle s e)) rest)%list
  end.

(** [class FpsCounter]: the times of the ticks it still counts, oldest
    first, in milliseconds. *)
Record FpsCounter := mkFpsCounter { times : list Q }.

Definition FpsCounter_new : FpsCounter := {| times := [] |}.

(** The loop [while (times.length > 0 && times[0] <= now - 1000)
    times.shift()]. *)
Fixpoint shift_expired (now : Q) (ts : list Q) : list Q :=
  match ts with
  | [] => []
  | t :: rest =>
      if Qle_bool t (now - 1000) then shift_expired now rest else ts
  end.

(** [tick()], with [now] for what [performance.now()] returns. *)
Definition tick (now : Q) (c : FpsCounter) : nat * FpsCounter :=
  let ts := (shift_expired now (times c) ++ [now])%list in
  (length ts, {| times := ts |}).

(** The counter after ticks at the times [nows], in order. *)
Definition ticks (c : FpsCounter) (nows : list Q) : FpsCounter :=
  fold_left (fun c now => snd (tick now c)) nows c.

(** A tick at [t] is within the second that ends at [now]. *)
Definition in_last_second (now t : Q) : bool := negb (Qle_bool t (now - 1000)).

(** A parameter is absent from a query when no pair carries its name. *)
Definition absent (name : string) (ps : list (string * string)) : Prop :=
  Forall (fun p => fst p <> name) ps.

(** A parameter is given as [v] when the first pair carrying its name
    carries [v]. *)
Definition given (name v : string) (ps : list (string * string)) : Prop :=
  exists before after, ps = (before ++ (name, v) :: after)%list /\ absent name before.

(** [new LoadProgress(progress, message)] on two elements as the document
    has them: shown, empty, at 0. *)
Definition LoadProgress_new : LoadProgress :=
  {| progress_max := 1; progress_value := 0; progress_hidden := false;
     message_innerText := ""; message_hidden := false |}.

(** Every scheduler a player holds runs at a positive rate, as the
    constructor makes them. *)
Definition rate_ok (s : Player) : Prop :=
  forall a, nesAudio s = Some a ->
            (0 < Audio.sampleRate (Audio.context a))%Q.

End Page.

(* ================================================================== *)
(** * The worker: [App.init] and the exposed [init]                    *)
(* ================================================================== *)

Module Worker.

Local Open Scope string_scope.

(** [type ProgressInput]. *)
Inductive ProgressInput :=
| Progress (value : Q)
| Message (value : string)
| Error (message : string)
| Done.

(** How a call into the platform (fetch, WebAssembly, the Ruby VM) ends:
    it returns, or it throws (rejects) an error with that [message]. *)
Inductive Outcome :=
| Returns
| Throws (message : string).

(** [vm.eval(`$nes.run`)] is the emulator's loop: besides returning or
    throwing it may simply go on for ever. *)
Inductive RunOutcome :=
| RunReturns
| RunThrows (message : string)
| RunForever.

(** One outcome per platform call of [init], in program order. A call that
    is never reached never shows its outcome. *)
Record Platform := mkPlatform {
  new_KeyEventConsumer : Outcome;   (* new KeyEventConsumer(new RingBuffer(..)) *)
  fetch_wasm : Outcome;             (* await fetch("./optcarrot.wasm") *)
  arrayBuffer : Outcome;            (* await response.arrayBuffer() *)
  new_RubyVM : Outcome;             (* new RubyVM(); vm.addToImports(imports) *)
  instantiate : Outcome;            (* await WebAssembly.instantiate(..) *)
  setInstance : Outcome;            (* await vm.setInstance(instance) *)
  setMemory : Outcome;              (* this.wasi.setMemory(..) *)
  _initialize : Outcome;            (* instance.exports._initialize() *)
  vm_initialize : Outcome;          (* vm.initialize() *)
  eval_require : Outcome;           (* vm.eval(require ...) *)
  eval_NES_new : Outcome;           (* vm.eval(... $nes = Optcarrot::NES.new(args)) *)
  eval_NES_run : RunOutcome         (* vm.eval(`$nes.run`) *)
}.

(** What the presentation side and the emulator have seen so far. *)
Record World := mkWorld {
  delivered : list ProgressInput;   (* calls of [progress], oldest first *)
  tick_loop_started : bool          (* [$nes.run] was entered *)
}.

Definition World_new : World := {| delivered := []; tick_loop_started := false |}.

(** How a computation of the worker ends. *)
Inductive Completion (A : Type) :=
| Value (a : A)
| Raised (message : string)
| Unfinished.
Arguments Value {A} a.
Arguments Raised {A} message.
Arguments Unfinished {A}.

(** State and exceptions, as [init] threads them. *)
Definition M (A : Type) : Type := World -> Completion A * World.

Definition ret {A} (a : A) : M A := fun w => (Value a, w).

Definition bind {A B} (m : M A) (k : A -> M B) : M B :=
  fun w =>
    match m w with
    | (Value a, w') => k a w'
    | (Raised e, w') => (Raised e, w')
    | (Unfinished, w') => (Unfinished, w')
    end.

Declare Scope worker_scope.
Delimit Scope worker_scope with worker.
Notation "m ;; k" := (bind m (fun _ => k))
  (at level 100, k at level 200, right associativity) : worker_scope.

(** [progress(input)]. *)
Definition progress (input : ProgressInput) : M unit :=
  fun w => (Value tt, {| delivered := delivered w ++ [input];
                         tick_loop_started := tick_loop_started w |}).

(** A platform call. *)
Definition call (o : Outcome) : M unit :=
  fun w => match o with
           | Returns => (Value tt, w)
           | Throws e => (Raised e, w)
           end.

(** [vm.eval(`$nes.run`)]. *)
Definition run (o : RunOutcome) : M unit :=
  fun w =>
    let w' := {| delivered := delivered w; tick_loop_started := true |} in
    match o with
    | RunReturns => (Value tt, w')
    | RunThrows e => (Raised e, w')
    | RunForever => (Unfinished, w')
    end.

(** [try m catch (e) h e], also the [.catch] of a promise. *)
Definition try_catch {A} (m : M A) (h : string -> M A) : M A :=
  fun w =>
    match m w with
    | (Raised e, w') => h e w'
    | r => r
    end.

Local Open Scope Q_scope.

(** [App.init]. *)
Definition App_init (pf : Platform) : M unit :=
  (call (new_KeyEventConsumer pf) ;;
  progress (Message "Downloading...") ;;
  progress (Progress 0) ;;
  call (fetch_wasm pf) ;;
  call (arrayBuffer pf) ;;
  progress (Progress 0.2) ;;
  progress (Message "Instantiating Optcarrot...") ;;
  call (new_RubyVM pf) ;;
  call (instantiate pf) ;;
  call (setInstance pf) ;;
  progress (Progress 0.3) ;;
  call (setMemory pf) ;;
  call (_initialize pf) ;;
  call (vm_initialize pf) ;;
  progress (Progress 0.6) ;;
  call (eval_require pf) ;;
  progress (Progress 0.8) ;;
  call (eval_NES_new pf) ;;
  progress (Progress 1) ;;
  progress Done ;;
  run (eval_NES_run pf))%worker.

(** The two handlers of the exposed [init] are the same function. *)
Definition report (e : string) : M unit :=
  progress (Error ("Failed to initialize Optcarrot: " ++ e)%string).

(** The [init] given to [Comlink.expose]: the [.catch] on the promise that
    [app.init] returns, inside the [try] around the call. *)
Definition init (pf : Platform) : M unit :=
  try_catch (try_catch (App_init pf) report) report.

(** A session: [init] called once in a new worker. *)
Definition session (pf : Platform) : World := snd (init pf World_new).

(** The platform calls that make up the startup phase, in program order. *)
Definition startup_calls (pf : Platform) : list Outcome :=
  [new_KeyEventConsumer pf; fetch_wasm pf; arrayBuffer pf; new_RubyVM pf;
   instantiate pf; setInstance pf; setMemory pf; _initialize pf;
   vm_initialize pf; eval_require pf; eval_NES_new pf].

Definition returns (o : Outcome) : bool :=
  match o with Returns => true | Throws _ => false end.

(** The startup succeeds when every one of its calls returns. *)
Definition startup_ok (pf : Platform) : bool := forallb returns (startup_calls pf).

(** The message of the first startup call that throws. *)
Fixpoint first_failure (os : list Outcome) : option string :=
  match os with
  | [] => None
  | Returns :: rest => first_failure rest
  | Throws e :: _ => Some e
  end.

Definition is_terminal (i : ProgressInput) : bool :=
  match i with Error _ | Done => true | _ => false end.

Definition is_error (i : ProgressInput) : bool :=
  match i with Error _ => true | _ => false end.

Definition is_done (i : ProgressInput) : bool :=
  match i with Done => true | _ => false end.

(** The values of the [progress] events of a stream, in order. *)
Definition progress_values (l : list ProgressInput) : list Q :=
  flat_map (fun i => match i with Progress v => [v] | _ => [] end) l.

(** The nine events of a startup in which every call returns. *)
Definition startup_stream : list ProgressInput :=
  [Message "Downloading..."; Progress 0; Progress 0.2;
   Message "Instantiating Optcarrot..."; Progress 0.3; Progress 0.6;
   Progress 0.8; Progress 1; Done].

(** The events of a stream that come after its first [Done], if it has
    one. *)
Fixpoint after_done (l : list ProgressInput) : option (list ProgressInput) :=
  match l with
  | [] => None
  | Done :: rest => Some rest
  | _ :: rest => after_done rest
  end.

(** The events of a stream that come after its first [Error], if it has
    one. *)
Fixpoint after_error (l : list ProgressInput) : option (list ProgressInput) :=
  match l with
  | [] => None
  | Error _ :: rest => Some rest
  | _ :: rest => after_error rest
  end.

(** A platform on which every startup call returns and the emulator ends
    as [r]. *)
Definition Platform_ok (r : RunOutcome) : Platform :=
  {| new_KeyEventConsumer := Returns; fetch_wasm := Returns;
     arrayBuffer := Returns; new_RubyVM := Returns; instantiate := Returns;
     setInstance := Returns; setMemory := Returns; _initialize := Returns;
     vm_initialize := Returns; eval_require := Returns;
     eval_NES_new := Returns; eval_NES_run := r |}.

(** The same platform with a binary that does not instantiate. *)
Definition Platform_bad_binary (e : string) : Platform :=
  {| new_KeyEventConsumer := Returns; fetch_wasm := Returns;
     arrayBuffer := Returns; new_RubyVM := Returns; instantiate := Throws e;
     setInstance := Returns; setMemory := Returns; _initialize := Returns;
     vm_initialize := Returns; eval_require := Returns;
     eval_NES_new := Returns; eval_NES_run := RunForever |}.

(** The page's handler of a progress event (the third proxy of [play]). *)
Definition on_progress (input : ProgressInput) (p : Page.LoadProgress)
  : Page.LoadProgress :=
  match input with
  | Error message => Page.error message p
  | Message value => Page.log value p
  | Done => Page.hide p
  | Progress value => Page.setProgress value p
  end.

(** The display after the page has handled a stream, from its state at
    load. *)
Definition display (l : list ProgressInput) : Page.LoadProgress :=
  fold_left (fun p i => on_progress i p) l Page.LoadProgress_new.

End Worker.

(* ================================================================== *)
(** * The input channel                                                *)
(* ================================================================== *)

Module KeyEventBus.

Local Open Scope nat_scope.

(** Modelled from the spec: the EventChannel's backing store, which the
    sources only allocate ([RingBuffer.getStorageForCapacity(1024,
    Uint8Array)]) and wrap; the ring buffer itself is not among them. A
    circular buffer of bytes with a read and a write index, of a capacity
    fixed when it is made. One slot stays empty, so that a full channel and
    an empty one differ. Producer and consumer wrap the same store, so the
    store is what is passed along. *)
Record RingBuffer := mkRingBuffer {
  storage : list Z;
  read_ptr : nat;
  write_ptr : nat
}.

(** Modelled from the spec: allocation of a channel for [capacity] bytes. *)
Definition getStorageForCapacity (capacity : nat) : RingBuffer :=
  {| storage := repeat 0%Z (capacity + 1); read_ptr := 0; write_ptr := 0 |}.

(** Modelled from the spec: the size of the store, fixed when it is made. *)
Definition storage_capacity (rb : RingBuffer) : nat := length (storage rb).

(** Modelled from the spec: the bytes written and not yet read. *)
Definition available_read (rb : RingBuffer) : nat :=
  (write_ptr rb + storage_capacity rb - read_ptr rb) mod storage_capacity rb.

(** Modelled from the spec: the room left; a write never overtakes unread
    data. *)
Definition available_write (rb : RingBuffer) : nat :=
  storage_capacity rb - 1 - available_read rb.

(** Modelled from the spec: storing one byte at the write index. *)
Definition write_byte (b : Z) (rb : RingBuffer) : RingBuffer :=
  {| storage := <[write_ptr rb := (b mod 256)%Z]> (storage rb);
     read_ptr := read_ptr rb;
     write_ptr := (write_ptr rb + 1) mod storage_capacity rb |}.

(** Modelled from the spec: taking one byte at the read index. *)
Definition read_byte (rb : RingBuffer) : Z * RingBuffer :=
  (storage rb !!! read_ptr rb,
   {| storage := storage rb;
      read_ptr := (read_ptr rb + 1) mod storage_capacity rb;
      write_ptr := write_ptr rb |}).

(** Modelled from the spec: InputEvent, a button code and a flag. *)
Record InputEvent := mkInputEvent { code : Z; pressed : bool }.

(** Modelled from the spec: the wire format, one byte of code and one byte
    of flag. *)
Definition encode (e : InputEvent) : list Z :=
  [code e; if pressed e then 1%Z else 0%Z].

(** Modelled from the spec: [tryPush], which refuses and drops the event
    when the channel has no room for it. *)
Definition tryPush (e : InputEvent) (rb : RingBuffer) : bool * RingBuffer :=
  if available_write rb <? 2 then (false, rb)
  else (true, fold_left (fun r b => write_byte b r) (encode e) rb).

(** Modelled from the spec: [tryPop], which yields nothing when no event is
    pending. *)
Definition tryPop (rb : RingBuffer) : option InputEvent * RingBuffer :=
  if available_read rb <? 2 then (None, rb)
  else
    let '(c, rb1) := read_byte rb in
    let '(p, rb2) := read_byte rb1 in
    (Some {| code := c; pressed := negb (p =? 0)%Z |}, rb2).

(** Modelled from the spec: [KeyEventProducer.push(code, pressed)], called
    by the key listeners, which do not look at a result. *)
Definition push (c : Z) (p : bool) (rb : RingBuffer) : RingBuffer :=
  snd (tryPush {| code := c; pressed := p |} rb).

(** Modelled from the spec: [KeyEventConsumer.consume()], the pair of code
    and flag, or nothing. *)
Definition consume (rb : RingBuffer) : option (Z * bool) * RingBuffer :=
  match tryPop rb with
  | (Some e, rb') => (Some (code e, pressed e), rb')
  | (None, rb') => (None, rb')
  end.

(** The [keydown] and [keyup] listeners of [play] (index.ts). *)
Definition keydown (key : string) (rb : RingBuffer) : RingBuffer :=
  match Page.padCodeFromCode key with
  | Some c => push c true rb
  | None => rb
  end.

Definition keyup (key : string) (rb : RingBuffer) : RingBuffer :=
  match Page.padCodeFromCode key with
  | Some c => push c false rb
  | None => rb
  end.

(** [event.join(",")] on a pair of a number and a boolean. *)
Definition join (e : Z * bool) : string :=
  (NilZero.string_of_int (Z.to_int (fst e)) ++ ","
   ++ (if snd e then "true" else "false"))%string.

(** [App.fetchKeyEvent] (optcarrot.worker.ts). *)
Definition fetchKeyEvent (rb : RingBuffer) : string * RingBuffer :=
  match consume rb with
  | (None, rb') => (""%string, rb')
  | (Some event, rb') => (join event, rb')
  end.

(** A use of the channel by its one producer and its one consumer, as the
    sequence of their calls. *)
Inductive Op :=
| DoPush (e : InputEvent)
| DoPop.

(** What a call gives back. *)
Inductive Obs :=
| Pushed (accepted : bool)
| Popped (r : option InputEvent).

Fixpoint run (rb : RingBuffer) (ops : list Op) : list Obs :=
  match ops with
  | [] => []
  | DoPush e :: rest =>
      let '(ok, rb') := tryPush e rb in Pushed ok :: run rb' rest
  | DoPop :: rest =>
      let '(r, rb') := tryPop rb in Popped r :: run rb' rest
  end.

(** The FIFO order in the words of the spec: a pop observes the oldest push
    not popped yet, or nothing when there is none; [q] holds the pushes not
    popped yet, oldest first. *)
Fixpoint fifo (q : list InputEvent) (ops : list Op) : list Obs :=
  match ops with
  | [] => []
  | DoPush e :: rest => Pushed true :: fifo (q ++ [e]) rest
  | DoPop :: rest =>
      match q with
      | [] => Popped None :: fifo [] rest
      | e :: q' => Popped (Some e) :: fifo q' rest
      end
  end.

(** Capacity is not exceeded: never more than [n] events pending, [k] being
    pending before [ops]. *)
Fixpoint fits (n k : nat) (ops : list Op) : bool :=
  match ops with
  | [] => true
  | DoPush _ :: rest => (k + 1 <=? n) && fits n (k + 1) rest
  | DoPop :: rest => fits n (k - 1) rest
  end.

Definition is_byte (z : Z) : Prop := (0 <= z < 256)%Z.

Definition pushed_events (ops : list Op) : list InputEvent :=
  flat_map (fun o => match o with DoPush e => [e] | DoPop => [] end) ops.

(** The bytes written and not yet read, oldest first. *)
Definition contents (rb : RingBuffer) : list Z :=
  map (fun i => storage rb !!! ((read_ptr rb + i) mod storage_capacity rb))
      (seq 0 (available_read rb)).

(** The indices of a channel stay inside its store. *)
Definition wf (rb : RingBuffer) : Prop :=
  read_ptr rb < storage_capacity rb /\ write_ptr rb < storage_capacity rb.

(** A channel over a store of [N] bytes holds exactly the events [q],
    oldest first, in wire format. *)
Definition holds (N : nat) (rb : RingBuffer) (q : list InputEvent) : Prop :=
  storage_capacity rb = N /\ wf rb /\
  contents rb = flat_map encode q /\
  Forall (fun e => is_byte (code e)) q.

End KeyEventBus.

(* ================================================================== *)
(** * The Ruby drivers of [OPTCARROT_WEB_DRIVER] (optcarrot.worker.ts)  *)
(* ================================================================== *)

Module Driver.

(** What [BrowserInput#tick] asks of the pads. *)
Inductive PadCall :=
| keydown (pad code : Z)
| keyup (pad code : Z).

Section BrowserInput.

(** Ruby's [String#split(",")] and [String#to_i], which the driver calls
    and the sources do not hold. *)
Variable split : string -> list string.
Variable to_i : string -> Z.

(** [BrowserInput#tick], on the string that [fetchKeyEvent] returned. A
    missing first field is [nil], and [nil.to_i] is 0; a missing second
    field is [nil], which is not "true". *)
Definition tick (event : string) : list PadCall :=
  if String.eqb event "" then []
  else
    let fields := split event in
    let code := match nth_error fields 0 with
                | Some s => to_i s
                | None => 0%Z
                end in
    let pressed := match nth_error fields 1 with
                   | Some s => String.eqb s "true"
                   | None => false
                   end in
    if pressed then [keydown 0 code] else [keyup 0 code].

End BrowserInput.

(** A string without a comma. *)
Fixpoint comma_free (s : string) : bool :=
  match s with
  | EmptyString => true
  | String c rest => negb (Ascii.eqb c ",") && comma_free rest
  end.

(** The decimal numeral that JavaScript writes for a small integer. *)
Definition decimal (c : Z) : string := NilZero.string_of_int (Z.to_int c).

(** A [split] that cuts at every comma. *)
Fixpoint split_commas (field s : string) : list string :=
  match s with
  | EmptyString => [field]
  | String c rest =>
      if Ascii.eqb c "," then field :: split_commas EmptyString rest
      else split_commas (field ++ String c EmptyString)%string rest
  end.

(** A [to_i] that reads decimal digits from the left. *)
Fixpoint read_digits (acc : Z) (s : string) : Z :=
  match s with
  | EmptyString => acc
  | String c rest =>
      let n := Z.of_nat (nat_of_ascii c) in
      if ((48 <=? n) && (n <=? 57))%Z then read_digits (10 * acc + (n - 48)) rest
      else acc
  end.

(** [CanvasVideo#init]: the palette entry of a colour,
    [0xff000000 | (b << 16) | (g << 8) | r]. *)
Definition palette_entry (r g b : Z) : Z :=
  Z.lor 4278190080 (Z.lor (Z.shiftl b 16) (Z.lor (Z.shiftl g 8) r)).

(** [pack("L*")] of one entry: the four bytes of its low 32 bits, lowest
    first, as WebAssembly lays integers out; read back by [NESView.draw] as
    one pixel of an [ImageData], red, green, blue, alpha. *)
Definition pack_L (v : Z) : list Z :=
  let u := (v mod 4294967296)%Z in
  [(u mod 256)%Z; (u / 256 mod 256)%Z; (u / 65536 mod 256)%Z;
   (u / 16777216 mod 256)%Z].

End Driver.

(* ================================================================== *)
(** * Properties of the audio scheduler                                *)
(* ================================================================== *)

Section AudioScheduler.

Import Audio.
Local Open Scope Q_scope.

Implicit Types (a : NESAudio) (input : Int16Array) (t d : Q).

Lemma duration_fill input rate :
  duration (fill input (createBuffer 1 (length input) rate))
  = inject_Z (Z.of_nat (length input)) / rate.
Proof. reflexivity. Qed.

Lemma duration_nonneg (n : nat) (rate : Q) :
  0 < rate -> 0 <= inject_Z (Z.of_nat n) / rate.
Proof.
  intros Hrate. apply Qle_shift_div_l; [exact Hrate|].
  rewrite Qmult_0_l. change 0 with (inject_Z 0).
  rewrite <- Zle_Qle. lia.
Qed.

Lemma push_context input a : context (fst (push input a)) = context a.
Proof. unfold push. destruct (Qlt_le_dec _ _); reflexivity. Qed.

(** One call of [push] never moves the clock backwards. *)
Lemma push_clock_le input a :
  0 < sampleRate (context a) ->
  scheduledTime a <= scheduledTime (fst (push input a)).
Proof.
  intros Hrate. unfold push.
  pose proof (duration_nonneg (length input) _ Hrate) as Hd.
  destruct (Qlt_le_dec _ _) as [Hlt|Hle]; cbn [fst scheduledTime];
    rewrite duration_fill; lra.
Qed.

(** C1: [push] is a two-branch rule on [now] and the PlaybackClock. If
    [now < scheduled] the segment starts exactly at [scheduled], the clock
    advances by exactly the segment's duration and nothing is signalled;
    otherwise the segment starts at [now], the clock becomes [now] plus the
    duration, and one underrun warning is written. *)
Theorem push_two_branch_rule a input :
  let now := currentTime (context a) in
  let scheduled := scheduledTime a in
  let segment_duration := inject_Z (Z.of_nat (length input)) / sampleRate (context a) in
  let out := snd (push input a) in
  let scheduled' := scheduledTime (fst (push input a)) in
  (now < scheduled ->
     starts out = [scheduled] /\
     scheduled' = scheduled + segment_duration /\
     underruns out = []) /\
  (scheduled <= now ->
     starts out = [now] /\
     scheduled' = now + segment_duration /\
     out = [Warn "Audio buffer underrun :(" (scheduled - now);
            Start now (fill input (createBuffer 1 (length input)
                                     (sampleRate (context a))))]).
Proof.
  cbv zeta. unfold push.
  destruct (Qlt_le_dec _ _) as [Hlt|Hle]; split; intros H.
  - repeat split.
  - exfalso. lra.
  - exfalso. lra.
  - repeat split.
Qed.

Lemma push_two_branch_rule_witness :
  let a := {| context := {| sampleRate := 11050; currentTime := 1 |};
              scheduledTime := 2 |} in
  let b := {| context := {| sampleRate := 11050; currentTime := 3 |};
              scheduledTime := 2 |} in
  (starts (snd (push [0; 0]%Z a)) = [2] /\
   scheduledTime (fst (push [0; 0]%Z a)) = 2 + inject_Z 2 / 11050 /\
   underruns (snd (push [0; 0]%Z a)) = []) /\
  (starts (snd (push [0; 0]%Z b)) = [3] /\
   scheduledTime (fst (push [0; 0]%Z b)) = 3 + inject_Z 2 / 11050 /\
   snd (push [0; 0]%Z b)
   = [Warn "Audio buffer underrun :(" (2 - 3);
      Start 3 (fill [0; 0]%Z (createBuffer 1 2 11050))]).
Proof.
  cbv zeta. split.
  - apply (push_two_branch_rule
             {| context := {| sampleRate := 11050; currentTime := 1 |};
                scheduledTime := 2 |} [0; 0]%Z).
    reflexivity.
  - destruct (push_two_branch_rule
                {| context := {| sampleRate := 11050; currentTime := 3 |};
                   scheduledTime := 2 |} [0; 0]%Z) as [_ H].
    apply H. cbv; discriminate.
Defined.

Lemma deliveries_cons a ev evs :
  deliveries a (ev :: evs)
  = (fst (deliveries (fst (deliver a ev)) evs),
     snd (deliver a ev) ++ snd (deliveries (fst (deliver a ev)) evs)).
Proof.
  cbn [deliveries]. destruct (deliver a ev) as [a1 out1]. cbn [fst snd].
  destruct (deliveries a1 evs) as [a2 out2]. reflexivity.
Qed.


Lemma underruns_app out1 out2 :
  underruns (out1 ++ out2) = underruns out1 ++ underruns out2.
Proof. unfold underruns. apply flat_map_app. Qed.









Lemma handle_rate_ok s e : Page.rate_ok s -> Page.rate_ok (fst (Page.handle s e)).
Proof.
  intros Hok. destruct e as [checked|now bytes|bytes]; cbn [Page.handle fst].
  - exact Hok.
  - unfold Page.playAudio. destruct (negb (Page.audioEnabled s)); [exact Hok|].
    match goal with |- context [push bytes ?x] =>
      pose proof (push_context bytes x) as Hctx;
      destruct (push bytes x) as [a' out] end.
    cbn [fst] in *. intros a Ha. cbn in Ha. injection Ha as <-.
    rewrite Hctx. destruct (Page.nesAudio s) as [a0|] eqn:Ha0.
    + cbn. apply Hok. exact Ha0.
    + cbn. reflexivity.
  - exact Hok.
Qed.

Lemma handles_rate_ok evs s : Page.rate_ok s -> Page.rate_ok (Page.handles s evs).
Proof.
  revert s. induction evs as [|e rest IH]; intros s Hok; cbn [Page.handles].
  - exact Hok.
  - apply IH, handle_rate_ok, Hok.
Qed.

Lemma Player_new_rate_ok checked : Page.rate_ok (Page.Player_new checked).
Proof. intros a Ha. discriminate Ha. Qed.

(** A step of the player either leaves the scheduler alone or is an enabled
    [playAudio], which stores what [push] returns. *)
Lemma handle_scheduler s e :
  Page.nesAudio (fst (Page.handle s e)) = Page.nesAudio s \/
  exists now bytes a,
    e = Page.PlayAudio now bytes /\ Page.audioEnabled s = true /\
    a = match Page.nesAudio s with
        | None => NESAudio_new now
        | Some a0 => at_time now a0
        end /\
    Page.nesAudio (fst (Page.handle s e)) = Some (fst (push bytes a)).
Proof.
  destruct e as [checked|now bytes|bytes]; cbn [Page.handle fst];
    [left; reflexivity| |left; reflexivity].
  unfold Page.playAudio. destruct (Page.audioEnabled s) eqn:Hen; cbn [negb].
  - right. eexists now, bytes, _. repeat split.
    match goal with |- context [push bytes ?x] => destruct (push bytes x) end.
    reflexivity.
  - left. reflexivity.
Qed.

Lemma handle_clock_le s e c :
  Page.rate_ok s -> Page.clock s = Some c ->
  exists c', Page.clock (fst (Page.handle s e)) = Some c' /\ c <= c'.
Proof.
  intros Hok Hc. unfold Page.clock in *.
  destruct (Page.nesAudio s) as [a0|] eqn:Ha0; [|discriminate Hc].
  injection Hc as <-.
  destruct (handle_scheduler s e) as [Hsame|(now & bytes & a & _ & _ & Ha & Hpush)].
  - rewrite Hsame, Ha0. eexists; split; [reflexivity|apply Qle_refl].
  - rewrite Hpush. eexists; split; [reflexivity|].
    rewrite Ha0 in Ha. subst a.
    change (scheduledTime a0) with (scheduledTime (at_time now a0)).
    apply push_clock_le. cbn. apply Hok. exact Ha0.
Qed.

Lemma handles_clock_le evs s c :
  Page.rate_ok s -> Page.clock s = Some c ->
  exists c', Page.clock (Page.handles s evs) = Some c' /\ c <= c'.
Proof.
  revert s c. induction evs as [|e rest IH]; intros s c Hok Hc; cbn [Page.handles].
  - exists c. split; [exact Hc|apply Qle_refl].
  - destruct (handle_clock_le s e c Hok Hc) as (c1 & Hc1 & Hle1).
    destruct (IH _ c1 (handle_rate_ok s e Hok) Hc1) as (c2 & Hc2 & Hle2).
    exists c2. split; [exact Hc2|]. eapply Qle_trans; eassumption.
Qed.

(** C9: in a player started by [play], a step that changes the PlaybackClock
    is a [playAudio] relay with audio enabled, and the new clock is the one
    [push] returns; and whatever events follow, a clock once read is never
    found at a smaller value later, the underrun reset included. *)
Theorem clock_mutated_only_by_push_and_monotone
    (checked : bool) (evs : list Page.Event) :
  let s := Page.handles (Page.Player_new checked) evs in
  (forall e,
     Page.clock (fst (Page.handle s e)) <> Page.clock s ->
     exists now bytes a,
       e = Page.PlayAudio now bytes /\ Page.audioEnabled s = true /\
       Page.clock (fst (Page.handle s e))
       = Some (scheduledTime (fst (push bytes a)))) /\
  (forall later c,
     Page.clock s = Some c ->
     exists c', Page.clock (Page.handles s later) = Some c' /\ c <= c').
Proof.
  intros s. split.
  - intros e Hchange.
    destruct (handle_scheduler s e) as [Hsame|(now & bytes & a & He & Hen & _ & Hpush)].
    + exfalso. apply Hchange. unfold Page.clock. rewrite Hsame. reflexivity.
    + exists now, bytes, a. repeat split; [exact He|exact Hen|].
      unfold Page.clock. rewrite Hpush. reflexivity.
  - intros later c Hc. apply handles_clock_le; [|exact Hc].
    apply handles_rate_ok, Player_new_rate_ok.
Qed.

Lemma clock_mutated_only_by_push_and_monotone_witness :
  let s := Page.handles (Page.Player_new true)
             [Page.PlayAudio 0 [1; 2]%Z; Page.Render []] in
  (exists now bytes a,
     Page.PlayAudio 5 [3]%Z = Page.PlayAudio now bytes /\
     Page.audioEnabled s = true /\
     Page.clock (fst (Page.handle s (Page.PlayAudio 5 [3]%Z)))
     = Some (scheduledTime (fst (push bytes a)))) /\
  (exists c', Page.clock (Page.handles s [Page.Click false; Page.PlayAudio 7 [4]%Z])
              = Some c' /\ 0 + inject_Z 2 / 11050 <= c').
Proof.
  cbv zeta.
  destruct (clock_mutated_only_by_push_and_monotone true
              [Page.PlayAudio 0 [1; 2]%Z; Page.Render []]) as [Honly Hmono].
  split.
  - apply Honly. vm_compute. discriminate.
  - apply Hmono. reflexivity.
Defined.

Lemma sample_of_range (s : Z) :
  is_int16 s ->
  sample_of s == inject_Z s / 65536 /\ -(1#2) <= sample_of s /\ sample_of s < 1#2.
Proof.
  intros Hs. unfold is_int16 in Hs. unfold sample_of.
  change (Z.shiftl 2 15) with 65536%Z.
  split; [reflexivity|].
  unfold Qdiv, Qmult, Qinv, Qle, Qlt, inject_Z; simpl. lia.
Qed.

(** What the worker relays is an [Int16Array] indeed. *)
Lemma int16_of_bytes_range (lo hi : Z) : is_int16 (int16_of_bytes lo hi).
Proof.
  unfold is_int16, int16_of_bytes.
  pose proof (Z.mod_pos_bound lo 256 eq_refl).
  pose proof (Z.mod_pos_bound hi 256 eq_refl).
  destruct (Z.ltb_spec (lo mod 256 + 256 * (hi mod 256)) 32768); lia.
Qed.

(** What [new Int16Array] makes of a buffer: on an odd number of bytes it
    throws; on an even number it holds one 16-bit sample for every two. *)
Lemma Int16Array_of_bytes_spec (bytes : list Z) :
  match Int16Array_of_bytes bytes with
  | Some samples =>
      Nat.Even (length bytes) /\
      length samples = (length bytes / 2)%nat /\
      Forall is_int16 samples
  | None => Nat.Odd (length bytes)
  end.
Proof.
  enough (H : forall n bytes, (length bytes <= n)%nat ->
              match Int16Array_of_bytes bytes with
              | Some samples =>
                  Nat.Even (length bytes) /\
                  length samples = (length bytes / 2)%nat /\
                  Forall is_int16 samples
              | None => Nat.Odd (length bytes)
              end)
    by (apply (H (length bytes)); lia).
  clear bytes. induction n as [|n IH]; intros bytes Hn.
  - destruct bytes; [|cbn in Hn; lia].
    cbn. split; [exists 0%nat; reflexivity|]. split; [reflexivity|constructor].
  - destruct bytes as [|lo [|hi rest]].
    + cbn. split; [exists 0%nat; reflexivity|]. split; [reflexivity|constructor].
    + cbn. exists 0%nat. reflexivity.
    + cbn [Int16Array_of_bytes length] in *.
      specialize (IH rest ltac:(lia)).
      destruct (Int16Array_of_bytes rest) as [samples|].
      * destruct IH as (Heven & Hlen & Hall). split; [|split].
        -- apply Nat.Even_succ_succ. exact Heven.
        -- cbn [length]. rewrite Hlen.
           change (S (S (length rest))) with (2 + length rest)%nat.
           replace (2 + length rest)%nat with (length rest + 1 * 2)%nat by lia.
           rewrite Nat.div_add by lia. lia.
        -- constructor; [apply int16_of_bytes_range|exact Hall].
      * apply Nat.Odd_succ_succ. exact IH.
Qed.

(** C10: [push] starts one source, and the buffer of that source holds, for
    every signed 16-bit sample [s] of the input and in the same order, the
    playback sample [s / 65536] (the divisor [2 << 15] is 65536), so every
    sample it plays lies in [-1/2, 1/2). *)
Theorem push_samples_halved a input :
  Forall is_int16 input ->
  Z.shiftl 2 15 = 65536%Z /\
  exists when buffer,
    sources (snd (push input a)) = [(when, buffer)] /\
    buffer_length buffer = length input /\
    channelData buffer = map sample_of input /\
    Forall2 (fun s x => x == inject_Z s / 65536 /\ -(1#2) <= x /\ x < 1#2)
            input (channelData buffer).
Proof.
  intros Hin. split; [reflexivity|].
  assert (Hsamples : Forall2 (fun s x => x == inject_Z s / 65536 /\
                                         -(1#2) <= x /\ x < 1#2)
                             input (map sample_of input)).
  { induction Hin as [|s rest Hs _ IH]; cbn [map]; constructor.
    - apply sample_of_range, Hs.
    - exact IH. }
  unfold push. destruct (Qlt_le_dec _ _); cbn [snd sources flat_map app].
  - eexists _, _. split; [reflexivity|]. cbn. repeat split. exact Hsamples.
  - eexists _, _. split; [reflexivity|]. cbn. repeat split. exact Hsamples.
Qed.

Lemma push_samples_halved_witness :
  Z.shiftl 2 15 = 65536%Z /\
  exists when buffer,
    sources (snd (push [-32768; 32767; 1]%Z (NESAudio_new 0))) = [(when, buffer)] /\
    buffer_length buffer = 3%nat /\
    channelData buffer = map sample_of [-32768; 32767; 1]%Z /\
    Forall2 (fun s x => x == inject_Z s / 65536 /\ -(1#2) <= x /\ x < 1#2)
            [-32768; 32767; 1]%Z (channelData buffer).
Proof.
  apply (push_samples_halved (NESAudio_new 0) [-32768; 32767; 1]%Z).
  repeat constructor; discriminate.
Defined.

End AudioScheduler.

(* ================================================================== *)
(** * Properties of the page                                           *)
(* ================================================================== *)

Section StartupParameters.

Import Page.
Local Open Scope string_scope.

Implicit Types (ps : list (string * string)) (name v : string).

Lemma get_absent name ps : absent name ps -> get ps name = None.
Proof.
  induction 1 as [|[k w] rest Hne _ IH]; cbn [get]; [reflexivity|].
  cbn [fst] in Hne. apply String.eqb_neq in Hne. rewrite Hne. exact IH.
Qed.

Lemma get_given name v ps : given name v ps -> get ps name = Some v.
Proof.
  intros (before & after & -> & Habs).
  induction Habs as [|[k w] rest Hne _ IH]; cbn [get app].
  - rewrite String.eqb_refl. reflexivity.
  - cbn [fst] in Hne. apply String.eqb_neq in Hne. rewrite Hne. exact IH.
Qed.

(** A pair of another name does not change what [get] finds. *)
Lemma get_other name k v before after :
  k <> name ->
  get (before ++ (k, v) :: after)%list name = get (before ++ after)%list name.
Proof.
  intros Hne. apply String.eqb_neq in Hne.
  induction before as [|[k' w] rest IH]; cbn [get app].
  - rewrite Hne. reflexivity.
  - destruct (String.eqb k' name); [reflexivity|exact IH].
Qed.

(** C8: each startup parameter has its own default. [opt] is [true] when
    absent and otherwise true exactly when given as "true"; [headless] is
    [false] when absent and otherwise true exactly when given as "true";
    [rom] is "Lan_Master.nes" when absent and otherwise the value given; and
    a pair of one name, put in or taken out anywhere in the query, leaves
    the fields of the other names as they were. *)
Theorem deriveOptions_defaults ps :
  let o := deriveOptions {| searchParams := ps |} in
  (absent "opt" ps -> opt o = true) /\
  (forall v, given "opt" v ps -> (opt o = true <-> v = "true")) /\
  (absent "headless" ps -> headless o = false) /\
  (forall v, given "headless" v ps -> (headless o = true <-> v = "true")) /\
  (absent "rom" ps -> rom o = "Lan_Master.nes") /\
  (forall v, given "rom" v ps -> rom o = v) /\
  (forall before k v after,
     ps = (before ++ (k, v) :: after)%list ->
     let o' := deriveOptions {| searchParams := (before ++ after)%list |} in
     (k <> "opt" -> opt o = opt o') /\
     (k <> "headless" -> headless o = headless o') /\
     (k <> "rom" -> rom o = rom o')).
Proof.
  cbv zeta. unfold deriveOptions. cbn [searchParams opt headless rom].
  repeat split.
  - intros H. rewrite (get_absent _ _ H). reflexivity.
  - rewrite (get_given _ _ _ H). apply String.eqb_eq.
  - rewrite (get_given _ _ _ H). apply String.eqb_eq.
  - intros H. rewrite (get_absent _ _ H). reflexivity.
  - rewrite (get_given _ _ _ H). apply String.eqb_eq.
  - rewrite (get_given _ _ _ H). apply String.eqb_eq.
  - intros H. rewrite (get_absent _ _ H). reflexivity.
  - intros v H. rewrite (get_given _ _ _ H). reflexivity.
  - intros Hne. subst ps. rewrite (get_other _ _ _ _ _ Hne). reflexivity.
  - intros Hne. subst ps. rewrite (get_other _ _ _ _ _ Hne). reflexivity.
  - intros Hne. subst ps. rewrite (get_other _ _ _ _ _ Hne). reflexivity.
Qed.

Lemma deriveOptions_defaults_witness :
  let o := deriveOptions {| searchParams := [("headless", "true"); ("rom", "a.nes")] |} in
  opt o = true /\
  (headless o = true <-> "true" = "true") /\
  rom o = "a.nes" /\
  opt o = opt (deriveOptions {| searchParams := [("rom", "a.nes")] |}).
Proof.
  cbv zeta.
  destruct (deriveOptions_defaults [("headless", "true"); ("rom", "a.nes")])
    as (Hopt & _ & _ & Hheadless & _ & Hrom & Hother).
  split; [|split; [|split]].
  - apply Hopt. repeat constructor; cbn; discriminate.
  - apply Hheadless. exists [], [("rom", "a.nes")]. split; [reflexivity|constructor].
  - apply Hrom. exists [("headless", "true")], []. split; [reflexivity|].
    repeat constructor; cbn; discriminate.
  - apply (Hother [] "headless" "true" [("rom", "a.nes")] eq_refl). discriminate.
Defined.

End StartupParameters.

Section Bootstrap.

Import Page.
Local Open Scope string_scope.

(** C6, as the code has it: without [SharedArrayBuffer] the script never
    calls [play], whatever else the host offers; it shows an error when the
    host has no service worker support, and when the registration succeeded
    and calls for no reload; when the registration is rejected, or calls for
    a reload, this load of the page leaves the display as it was. *)
Theorem no_SharedArrayBuffer_no_play (h : Host) (p : LoadProgress) :
  SharedArrayBuffer_defined h = false ->
  plays (snd (bootstrap h p)) = [] /\
  (serviceWorker_in_navigator h = false ->
   fst (bootstrap h p) = error "No Service Worker support" p) /\
  (forall active scope,
     serviceWorker_in_navigator h = true ->
     registration h = Registered active scope ->
     active && negb (controller h) = false ->
     fst (bootstrap h p)
     = error "Your browser does not support SharedArrayBuffer. Please use a modern browser like Chrome or Firefox." p) /\
  (forall active scope,
     serviceWorker_in_navigator h = true ->
     registration h = Registered active scope ->
     active && negb (controller h) = true ->
     fst (bootstrap h p) = p /\ In Reload (snd (bootstrap h p))) /\
  (forall err,
     serviceWorker_in_navigator h = true ->
     registration h = Rejected err ->
     fst (bootstrap h p) = p).
Proof.
  intros Hsab. unfold bootstrap. rewrite Hsab.
  destruct (serviceWorker_in_navigator h).
  - destruct (registration h) as [active scope|err].
    + destruct (active && negb (controller h)) eqn:Hreload.
      * split; [reflexivity|]. split; [intros H; discriminate H|].
        split; [|split].
        -- intros active' scope' _ H Hno. injection H as <- <-.
           rewrite Hreload in Hno. discriminate Hno.
        -- intros active' scope' _ _ _. split; [reflexivity|].
           right. left. reflexivity.
        -- intros err _ H. discriminate H.
      * split; [reflexivity|]. split; [intros H; discriminate H|].
        split; [|split].
        -- intros active' scope' _ _ _. reflexivity.
        -- intros active' scope' _ H Hyes. injection H as <- <-.
           rewrite Hreload in Hyes. discriminate Hyes.
        -- intros err _ H. discriminate H.
    + split; [reflexivity|]. split; [intros H; discriminate H|].
      split; [|split].
      * intros active scope _ H. discriminate H.
      * intros active scope _ H. discriminate H.
      * intros err' _ _. reflexivity.
  - split; [reflexivity|]. split; [reflexivity|].
    split; [|split].
    + intros active scope H. discriminate H.
    + intros active scope H. discriminate H.
    + intros err H. discriminate H.
Qed.

Lemma no_SharedArrayBuffer_no_play_witness :
  let h := {| serviceWorker_in_navigator := true;
              registration := Registered true "/";
              controller := true;
              SharedArrayBuffer_defined := false;
              location := {| searchParams := [] |} |} in
  plays (snd (bootstrap h LoadProgress_new)) = [] /\
  fst (bootstrap h LoadProgress_new)
  = error "Your browser does not support SharedArrayBuffer. Please use a modern browser like Chrome or Firefox." LoadProgress_new.
Proof.
  cbv zeta.
  destruct (no_SharedArrayBuffer_no_play
              {| serviceWorker_in_navigator := true;
                 registration := Registered true "/";
                 controller := true;
                 SharedArrayBuffer_defined := false;
                 location := {| searchParams := [] |} |}
              LoadProgress_new eq_refl) as (Hplay & _ & Herr & _).
  split; [exact Hplay|].
  apply (Herr true "/"); reflexivity.
Defined.

(** C6 as stated fails: with service workers supported, the registration
    rejected and no [SharedArrayBuffer], the script only writes to the
    console and the display stays as it was, without any error. *)
Lemma no_SharedArrayBuffer_error_not_reported :
  let h := {| serviceWorker_in_navigator := true;
              registration := Rejected "SecurityError";
              controller := false;
              SharedArrayBuffer_defined := false;
              location := {| searchParams := [] |} |} in
  SharedArrayBuffer_defined h = false /\
  fst (bootstrap h LoadProgress_new) = LoadProgress_new /\
  ~ (exists text, fst (bootstrap h LoadProgress_new) = error text LoadProgress_new).
Proof.
  cbv zeta. repeat split. intros [text H]. discriminate H.
Qed.

End Bootstrap.

(* ================================================================== *)
(** * Properties of the startup protocol                               *)
(* ================================================================== *)

Section Startup.

Import Worker.
Local Open Scope string_scope.

Implicit Types (pf : Platform) (e : string).

(** [app.init] is an [async] function: what it throws rejects its promise,
    so the handler of the [try] has nothing left to catch. *)
Lemma init_outer_handler_idle pf (w : World) :
  init pf w = try_catch (App_init pf) report w.
Proof.
  unfold init, try_catch at 1 2 3.
  destruct (App_init pf w) as [[[]|e|] w']; reflexivity.
Qed.

(** Closes the case of a session whose startup stops at a call that
    throws: the stream is a prefix of the startup stream and the report. *)
Local Ltac failing :=
  cbn; split; [reflexivity|split; [reflexivity|]];
  first [ exists 0%nat; split; [lia|reflexivity]
        | exists 2%nat; split; [lia|reflexivity]
        | exists 4%nat; split; [lia|reflexivity]
        | exists 5%nat; split; [lia|reflexivity]
        | exists 6%nat; split; [lia|reflexivity]
        | exists 7%nat; split; [lia|reflexivity] ].

(** The stream of a session, by the first startup call that throws. *)
Lemma session_cases pf :
  match first_failure (startup_calls pf) with
  | Some e =>
      startup_ok pf = false /\
      tick_loop_started (session pf) = false /\
      exists n, (n <= 8)%nat /\
        delivered (session pf)
        = (firstn n startup_stream
           ++ [Error ("Failed to initialize Optcarrot: " ++ e)])%list
  | None =>
      startup_ok pf = true /\
      tick_loop_started (session pf) = true /\
      delivered (session pf)
      = (startup_stream
         ++ match eval_NES_run pf with
            | RunThrows e => [Error ("Failed to initialize Optcarrot: " ++ e)]
            | _ => []
            end)%list
  end.
Proof.
  destruct pf as [o1 o2 o3 o4 o5 o6 o7 o8 o9 o10 o11 r].
  destruct o1; [|failing]. destruct o2; [|failing]. destruct o3; [|failing].
  destruct o4; [|failing]. destruct o5; [|failing]. destruct o6; [|failing].
  destruct o7; [|failing]. destruct o8; [|failing]. destruct o9; [|failing].
  destruct o10; [|failing]. destruct o11; [|failing].
  destruct r; cbn; repeat split.
Qed.

Lemma startup_prefix_not_terminal (n : nat) :
  (n <= 8)%nat ->
  Forall (fun i => is_terminal i = false) (firstn n startup_stream).
Proof.
  intros Hn. do 9 (destruct n as [|n]; [repeat constructor|]). lia.
Qed.

(** C5: when a call of the startup phase throws, the stream ends in one
    [Error] event, the only terminal event of the session, whose message is
    "Failed to initialize Optcarrot: " followed by the message of what was
    thrown; and the emulator's loop is never entered. *)
Theorem startup_failure_reported_once pf e :
  first_failure (startup_calls pf) = Some e ->
  (exists before,
     delivered (session pf)
     = (before ++ [Error ("Failed to initialize Optcarrot: " ++ e)])%list /\
     Forall (fun i => is_terminal i = false) before) /\
  tick_loop_started (session pf) = false.
Proof.
  intros Hfail. pose proof (session_cases pf) as Hcases.
  rewrite Hfail in Hcases. destruct Hcases as (_ & Hloop & n & Hn & Hev).
  split; [|exact Hloop].
  exists (firstn n startup_stream). split; [exact Hev|].
  apply startup_prefix_not_terminal, Hn.
Qed.

Lemma startup_failure_reported_once_witness :
  (exists before,
     delivered (session (Platform_bad_binary "CompileError"))
     = (before ++ [Error ("Failed to initialize Optcarrot: " ++ "CompileError")])%list /\
     Forall (fun i => is_terminal i = false) before) /\
  tick_loop_started (session (Platform_bad_binary "CompileError")) = false.
Proof.
  apply (startup_failure_reported_once (Platform_bad_binary "CompileError")).
  reflexivity.
Defined.

(** C3, as the code has it: a session delivers [Done] at most once and
    [Error] at most once, and nothing after an [Error]; after [Done] it
    delivers nothing, except one [Error] when the emulator's run itself
    throws; so when the run does not throw, the stream has at most one
    terminal event and nothing after it. *)
Theorem terminal_events_of_session pf :
  let evs := delivered (session pf) in
  (length (List.filter is_done evs) <= 1)%nat /\
  (length (List.filter is_error evs) <= 1)%nat /\
  (forall rest, after_error evs = Some rest -> rest = []) /\
  (forall rest, after_done evs = Some rest ->
     rest = [] \/
     exists e, eval_NES_run pf = RunThrows e /\
               rest = [Error ("Failed to initialize Optcarrot: " ++ e)]) /\
  ((forall e, eval_NES_run pf <> RunThrows e) ->
     (length (List.filter is_terminal evs) <= 1)%nat /\
     (forall rest, after_done evs = Some rest -> rest = [])).
Proof.
  cbv zeta. pose proof (session_cases pf) as Hcases.
  destruct (first_failure (startup_calls pf)) as [e|].
  - destruct Hcases as (_ & _ & n & Hn & ->).
    do 9 (destruct n as [|n];
          [cbn; repeat split; intros; try lia; try discriminate; congruence|]).
    lia.
  - destruct Hcases as (_ & _ & ->).
    destruct (eval_NES_run pf) as [|e|] eqn:Hrun; cbn;
      repeat split; intros; try lia; try (left; congruence);
      try congruence.
    right. exists e. split; congruence.
Qed.

Lemma terminal_events_of_session_witness :
  let evs := delivered (session (Platform_ok RunForever)) in
  (length (List.filter is_terminal evs) <= 1)%nat /\
  (forall rest, after_done evs = Some rest -> rest = []).
Proof.
  cbv zeta.
  destruct (terminal_events_of_session (Platform_ok RunForever))
    as (_ & _ & _ & _ & H).
  apply H. intros e He. discriminate He.
Defined.

(** C3 as stated fails: when every startup call returns and the run of the
    emulator then throws, the session delivers [Done] and after it an
    [Error], two terminal events. *)
Lemma error_delivered_after_done :
  let evs := delivered (session (Platform_ok (RunThrows "stack level too deep"))) in
  evs = (startup_stream
         ++ [Error "Failed to initialize Optcarrot: stack level too deep"])%list /\
  ~ ((length (List.filter is_terminal evs) <= 1)%nat /\
     (forall rest, after_done evs = Some rest -> rest = [])).
Proof.
  cbv zeta. split; [reflexivity|].
  intros [Hone _]. vm_compute in Hone. lia.
Qed.

(** The report of a run that throws reaches a display that [Done] has
    already hidden. *)
Lemma report_after_done_hidden e :
  Page.message_hidden
    (display (delivered (session (Platform_ok (RunThrows e))))) = true.
Proof. reflexivity. Qed.

(** C7, as the code has it: a startup in which every call returns delivers
    "Downloading...", progress 0, progress 0.2, "Instantiating
    Optcarrot...", then progress 0.3, 0.6, 0.8 and 1, then [Done]: the
    progress values go strictly up from 0 to 1, [Done] comes once, and after
    it comes nothing, except one [Error] when the emulator's run throws. A
    startup in which a call throws ends in one [Error] and has no other
    terminal event. *)
Theorem startup_progress_order pf :
  (startup_ok pf = true ->
     exists tail,
       delivered (session pf) = (startup_stream ++ tail)%list /\
       progress_values (delivered (session pf))
       = [0; 0.2; 0.3; 0.6; 0.8; 1]%Q /\
       StronglySorted Qlt (progress_values (delivered (session pf))) /\
       length (List.filter is_done (delivered (session pf))) = 1%nat /\
       (tail = [] \/
        exists e, eval_NES_run pf = RunThrows e /\
                  tail = [Error ("Failed to initialize Optcarrot: " ++ e)])) /\
  (startup_ok pf = false ->
     exists before e,
       delivered (session pf)
       = (before ++ [Error ("Failed to initialize Optcarrot: " ++ e)])%list /\
       Forall (fun i => is_terminal i = false) before).
Proof.
  pose proof (session_cases pf) as Hcases.
  destruct (first_failure (startup_calls pf)) as [e|].
  - destruct Hcases as (Hok & _ & n & Hn & Hev). split; intros H.
    + rewrite Hok in H. discriminate H.
    + exists (firstn n startup_stream), e. split; [exact Hev|].
      apply startup_prefix_not_terminal, Hn.
  - destruct Hcases as (Hok & _ & Hev). split; intros H.
    + eexists. split; [exact Hev|]. rewrite Hev.
      assert (Hsorted : StronglySorted Qlt [0; 0.2; 0.3; 0.6; 0.8; 1]%Q).
      { repeat constructor. }
      destruct (eval_NES_run pf) as [|e|]; cbn;
        repeat split; try exact Hsorted; try (left; reflexivity).
      right. exists e. split; reflexivity.
    + rewrite Hok in H. discriminate H.
Qed.

Lemma startup_progress_order_witness :
  (exists tail,
     delivered (session (Platform_ok RunForever)) = (startup_stream ++ tail)%list /\
     progress_values (delivered (session (Platform_ok RunForever)))
     = [0; 0.2; 0.3; 0.6; 0.8; 1]%Q /\
     StronglySorted Qlt (progress_values (delivered (session (Platform_ok RunForever)))) /\
     length (List.filter is_done (delivered (session (Platform_ok RunForever)))) = 1%nat /\
     (tail = [] \/
      exists e, eval_NES_run (Platform_ok RunForever) = RunThrows e /\
                tail = [Error ("Failed to initialize Optcarrot: " ++ e)])) /\
  (exists before e,
     delivered (session (Platform_bad_binary "CompileError"))
     = (before ++ [Error ("Failed to initialize Optcarrot: " ++ e)])%list /\
     Forall (fun i => is_terminal i = false) before).
Proof.
  split.
  - apply (startup_progress_order (Platform_ok RunForever)). reflexivity.
  - apply (startup_progress_order (Platform_bad_binary "CompileError")). reflexivity.
Defined.

(** C7 as stated fails: the stream of a startup in which every call returns
    is not "Downloading...", progress 0, further progress events and [Done]:
    the message "Instantiating Optcarrot..." stands among the progress
    events. *)
Lemma startup_stream_has_second_message :
  startup_ok (Platform_ok RunForever) = true /\
  ~ (exists values,
       delivered (session (Platform_ok RunForever))
       = (Message "Downloading..." :: Progress 0
          :: map Progress values ++ [Done])%list).
Proof.
  split; [reflexivity|].
  intros [values H]. vm_compute in H.
  destruct values as [|v1 [|v2 values]]; discriminate H.
Qed.

End Startup.

(* ================================================================== *)
(** * Properties of the input channel                                  *)
(* ================================================================== *)

Section EventChannel.

Import KeyEventBus.
Local Open Scope nat_scope.

Implicit Types (rb : RingBuffer) (e : InputEvent) (q : list InputEvent).

Lemma mod_once (a N : nat) : N <= a < 2 * N -> a mod N = a - N.
Proof.
  intros H. replace a with ((a - N) + 1 * N) at 1 by lia.
  rewrite Nat.Div0.mod_add. apply Nat.mod_small. lia.
Qed.

Lemma available_read_cases rb :
  wf rb ->
  available_read rb
  = if read_ptr rb <=? write_ptr rb then write_ptr rb - read_ptr rb
    else write_ptr rb + storage_capacity rb - read_ptr rb.
Proof.
  intros [Hr Hw]. unfold available_read.
  destruct (Nat.leb_spec (read_ptr rb) (write_ptr rb)).
  - rewrite mod_once by lia. lia.
  - apply Nat.mod_small. lia.
Qed.

Lemma succ_mod (i N : nat) :
  i < N -> (i + 1) mod N = if i + 1 =? N then 0 else i + 1.
Proof.
  intros H. destruct (Nat.eqb_spec (i + 1) N) as [->|Hne].
  - apply Nat.Div0.mod_same.
  - apply Nat.mod_small. lia.
Qed.

Lemma contents_length rb : length (contents rb) = available_read rb.
Proof. unfold contents. rewrite length_map, length_seq. reflexivity. Qed.

(** The slot [i] places after the read index. *)
Lemma slot_cases (r i N : nat) :
  r < N -> i < N ->
  (r + i) mod N = if r + i <? N then r + i else r + i - N.
Proof.
  intros Hr Hi. destruct (Nat.ltb_spec (r + i) N).
  - apply Nat.mod_small. lia.
  - apply mod_once. lia.
Qed.

(** Writing a byte into a channel that is not full appends it. *)
Lemma write_byte_spec (b : Z) rb :
  wf rb -> available_read rb < storage_capacity rb - 1 ->
  storage_capacity (write_byte b rb) = storage_capacity rb /\
  wf (write_byte b rb) /\
  available_read (write_byte b rb) = S (available_read rb) /\
  contents (write_byte b rb) = contents rb ++ [(b mod 256)%Z].
Proof.
  intros Hwf Hroom. pose proof Hwf as [Hr Hw].
  assert (Hcap : storage_capacity (write_byte b rb) = storage_capacity rb).
  { unfold storage_capacity, write_byte. cbn. apply length_insert. }
  assert (Hwf' : wf (write_byte b rb)).
  { split; rewrite Hcap; cbn; [exact Hr|]. apply Nat.mod_upper_bound. lia. }
  assert (Havail : available_read (write_byte b rb) = S (available_read rb)).
  { rewrite (available_read_cases _ Hwf'), Hcap.
    rewrite (available_read_cases _ Hwf) in Hroom |- *. cbn [write_byte read_ptr write_ptr].
    rewrite succ_mod by exact Hw.
    destruct (Nat.eqb_spec (write_ptr rb + 1) (storage_capacity rb));
      destruct (Nat.leb_spec (read_ptr rb) (write_ptr rb));
      repeat match goal with |- context [?x <=? ?y] =>
                               destruct (Nat.leb_spec x y) end; lia. }
  repeat split; try assumption; try apply Hwf'.
  unfold contents. rewrite Havail, Hcap, seq_S, map_app. cbn [map Nat.add read_ptr write_byte storage].
  f_equal.
  - apply map_ext_in. intros i Hi. apply in_seq in Hi.
    apply list_lookup_total_insert_ne.
    rewrite (available_read_cases _ Hwf) in Hi, Hroom.
    rewrite slot_cases by (destruct (read_ptr rb <=? write_ptr rb); lia).
    destruct (Nat.leb_spec (read_ptr rb) (write_ptr rb));
      destruct (Nat.ltb_spec (read_ptr rb + i) (storage_capacity rb)); lia.
  - f_equal.
    assert (Hslot : (read_ptr rb + available_read rb) mod storage_capacity rb
                    = write_ptr rb).
    { rewrite (available_read_cases _ Hwf) in Hroom |- *.
      rewrite slot_cases by (destruct (read_ptr rb <=? write_ptr rb); lia).
      destruct (Nat.leb_spec (read_ptr rb) (write_ptr rb));
        match goal with |- context [?x <? ?y] =>
                          destruct (Nat.ltb_spec x y) end; lia. }
    rewrite Hslot. apply list_lookup_total_insert_eq. exact Hw.
Qed.

(** Reading a byte from a channel that is not empty takes the oldest. *)
Lemma read_byte_spec rb :
  wf rb -> 0 < available_read rb ->
  storage_capacity (snd (read_byte rb)) = storage_capacity rb /\
  wf (snd (read_byte rb)) /\
  available_read rb = S (available_read (snd (read_byte rb))) /\
  contents rb = fst (read_byte rb) :: contents (snd (read_byte rb)).
Proof.
  intros Hwf Hsome. pose proof Hwf as [Hr Hw].
  assert (Hcap : storage_capacity (snd (read_byte rb)) = storage_capacity rb)
    by reflexivity.
  assert (Hwf' : wf (snd (read_byte rb))).
  { split; rewrite Hcap; cbn; [|exact Hw]. apply Nat.mod_upper_bound. lia. }
  assert (Havail : available_read rb = S (available_read (snd (read_byte rb)))).
  { rewrite (available_read_cases _ Hwf'), Hcap.
    rewrite (available_read_cases _ Hwf) in Hsome |- *.
    cbn [read_byte snd read_ptr write_ptr].
    rewrite succ_mod by exact Hr.
    destruct (Nat.eqb_spec (read_ptr rb + 1) (storage_capacity rb));
      destruct (Nat.leb_spec (read_ptr rb) (write_ptr rb));
      repeat match goal with |- context [?x <=? ?y] =>
                               destruct (Nat.leb_spec x y) end; lia. }
  repeat split; try assumption; try apply Hwf'.
  unfold contents at 1. rewrite Havail. cbn [seq map]. f_equal.
  - rewrite Nat.add_0_r, Nat.mod_small by exact Hr. reflexivity.
  - unfold contents. rewrite <- seq_shift, map_map. apply map_ext. intros i.
    cbn [read_byte snd read_ptr storage].
    change (storage_capacity (mkRingBuffer _ _ _)) with (storage_capacity rb).
    rewrite Nat.Div0.add_mod_idemp_l. do 2 f_equal. lia.
Qed.

Lemma encode_length q : length (flat_map encode q) = 2 * length q.
Proof. induction q as [|e q IH]; cbn [flat_map encode length app]; lia. Qed.

Lemma holds_available_read N rb q :
  holds N rb q -> available_read rb = 2 * length q.
Proof.
  intros (_ & _ & Hc & _). rewrite <- contents_length, Hc. apply encode_length.
Qed.

(** A channel with room takes the event at its end. *)
Lemma tryPush_spec N rb q e :
  holds N rb q -> is_byte (code e) -> 2 * length q + 2 <= N - 1 ->
  fst (tryPush e rb) = true /\ holds N (snd (tryPush e rb)) (q ++ [e]).
Proof.
  intros Hh Hbyte Hroom. pose proof (holds_available_read _ _ _ Hh) as Ha.
  destruct Hh as (Hcap & Hwf & Hc & Hq).
  unfold tryPush, available_write. rewrite Ha, Hcap.
  destruct (Nat.ltb_spec (N - 1 - 2 * length q) 2) as [Hlt|_]; [lia|].
  cbn [fst snd encode fold_left]. split; [reflexivity|].
  destruct (write_byte_spec (code e) rb Hwf) as (Hcap1 & Hwf1 & Ha1 & Hc1);
    [lia|].
  destruct (write_byte_spec (if pressed e then 1 else 0)%Z _ Hwf1)
    as (Hcap2 & Hwf2 & Ha2 & Hc2); [lia|].
  split; [lia|]. split; [exact Hwf2|]. split.
  - rewrite Hc2, Hc1, Hc, flat_map_app. cbn [flat_map encode app].
    rewrite <- app_assoc. cbn [app].
    rewrite Z.mod_small by exact Hbyte.
    destruct (pressed e); reflexivity.
  - apply Forall_app. split; [exact Hq|]. constructor; [exact Hbyte|constructor].
Qed.

(** An empty channel yields nothing and stays as it is. *)
Lemma tryPop_empty N rb : holds N rb [] -> tryPop rb = (None, rb).
Proof.
  intros Hh. unfold tryPop. rewrite (holds_available_read _ _ _ Hh). reflexivity.
Qed.

(** A channel that holds events yields the oldest. *)
Lemma tryPop_spec N rb q e :
  holds N rb (e :: q) ->
  fst (tryPop rb) = Some e /\ holds N (snd (tryPop rb)) q.
Proof.
  intros Hh. pose proof (holds_available_read _ _ _ Hh) as Ha.
  destruct Hh as (Hcap & Hwf & Hc & Hq). cbn [length] in Ha.
  unfold tryPop. rewrite Ha.
  destruct (Nat.ltb_spec (2 * S (length q)) 2) as [Hlt|_]; [lia|].
  destruct (read_byte_spec rb Hwf) as (Hcap1 & Hwf1 & Ha1 & Hc1); [lia|].
  destruct (read_byte_spec _ Hwf1) as (Hcap2 & Hwf2 & Ha2 & Hc2); [lia|].
  destruct (read_byte rb) as [c rb1]. cbn [fst snd] in *.
  destruct (read_byte rb1) as [p rb2]. cbn [fst snd] in *.
  rewrite Hc1, Hc2 in Hc. cbn [flat_map encode app] in Hc.
  injection Hc as Hcode Hflag Hrest. subst c p.
  inversion Hq as [|? ? Hbyte Hq']; subst.
  split.
  - f_equal. destruct e as [c [|]]; reflexivity.
  - split; [lia|]. split; [exact Hwf2|]. split; assumption.
Qed.

Lemma getStorageForCapacity_holds (capacity : nat) :
  holds (capacity + 1) (getStorageForCapacity capacity) [].
Proof.
  assert (Hcap : storage_capacity (getStorageForCapacity capacity) = capacity + 1).
  { unfold storage_capacity, getStorageForCapacity. cbn [storage].
    apply repeat_length. }
  assert (Hempty : available_read (getStorageForCapacity capacity) = 0).
  { unfold available_read. rewrite Hcap. cbn [write_ptr read_ptr getStorageForCapacity].
    rewrite Nat.sub_0_r. apply Nat.Div0.mod_same. }
  split; [exact Hcap|]. split; [|split; [|constructor]].
  - split; rewrite Hcap; cbn; lia.
  - unfold contents. rewrite Hempty. reflexivity.
Qed.

(** While no more than [n] events are pending, a channel with room for [n]
    events answers as the FIFO order says. *)
Lemma run_fifo (n N : nat) (ops : list Op) :
  2 * n <= N - 1 ->
  forall rb q,
    holds N rb q ->
    fits n (length q) ops = true ->
    Forall (fun e => is_byte (code e)) (pushed_events ops) ->
    run rb ops = fifo q ops.
Proof.
  intros Hn. induction ops as [|[e|] ops IH]; intros rb q Hh Hfits Hbytes.
  - reflexivity.
  - cbn [fits] in Hfits. apply andb_true_iff in Hfits as [Hroom Hfits].
    apply Nat.leb_le in Hroom.
    cbn [pushed_events flat_map app] in Hbytes.
    inversion Hbytes as [|? ? Hbyte Hbytes']; subst.
    destruct (tryPush_spec N rb q e Hh Hbyte) as [Hok Hh']; [lia|].
    cbn [run fifo]. destruct (tryPush e rb) as [ok rb']. cbn [fst snd] in *.
    subst ok. f_equal. apply IH; [exact Hh'| |exact Hbytes'].
    rewrite length_app. cbn [length]. exact Hfits.
  - cbn [fits] in Hfits. cbn [pushed_events flat_map app] in Hbytes.
    cbn [run fifo]. destruct q as [|e q].
    + rewrite (tryPop_empty _ _ Hh). f_equal. apply IH; assumption.
    + destruct (tryPop_spec N rb q e Hh) as [Hsome Hh'].
      destruct (tryPop rb) as [r rb']. cbn [fst snd] in *. subst r.
      f_equal. apply IH; [exact Hh'| |exact Hbytes].
      cbn [length] in Hfits. rewrite Nat.sub_succ, Nat.sub_0_r in Hfits.
      exact Hfits.
Qed.

(** C4: used by one producer and one consumer within its capacity, the
    channel is a lossless FIFO: every push is accepted, and every pop yields
    the oldest event pushed and not yet popped, or nothing when there is
    none. In particular the press and the release of button 0, pushed before
    any pop, come out as "0,true" and "0,false", and a third
    [fetchKeyEvent] finds the channel empty and answers with the empty
    string. *)
Theorem event_channel_fifo :
  (forall (capacity : nat) (ops : list Op),
     Forall (fun e => is_byte (code e)) (pushed_events ops) ->
     fits (capacity / 2) 0 ops = true ->
     run (getStorageForCapacity capacity) ops = fifo [] ops) /\
  (let rb0 := getStorageForCapacity 1024 in
   let rb2 := push 0 false (push 0 true rb0) in
   let first := fetchKeyEvent rb2 in
   let second := fetchKeyEvent (snd first) in
   let third := fetchKeyEvent (snd second) in
   fst first = "0,true"%string /\
   fst second = "0,false"%string /\
   fst third = ""%string).
Proof.
  split.
  - intros capacity ops Hbytes Hfits.
    apply (run_fifo (capacity / 2) (capacity + 1)).
    + rewrite Nat.add_sub. apply Nat.Div0.mul_div_le.
    + apply getStorageForCapacity_holds.
    + exact Hfits.
    + exact Hbytes.
  - vm_compute. repeat split.
Qed.

Lemma event_channel_fifo_witness :
  let press := {| code := 0; pressed := true |} in
  let release := {| code := 0; pressed := false |} in
  run (getStorageForCapacity 1024)
      [DoPush press; DoPush release; DoPop; DoPop; DoPop]
  = [Pushed true; Pushed true;
     Popped (Some press); Popped (Some release); Popped None].
Proof.
  cbv zeta.
  apply (proj1 event_channel_fifo 1024
           [DoPush {| code := 0; pressed := true |};
            DoPush {| code := 0; pressed := false |}; DoPop; DoPop; DoPop]).
  - repeat constructor; cbn; lia.
  - vm_compute. reflexivity.
Defined.

End EventChannel.

(* ================================================================== *)
(** * Further properties of the audio scheduler                        *)
(* ================================================================== *)

Section AudioTimeline.

Import Audio.
Local Open Scope Q_scope.

Implicit Types (a : NESAudio) (input : Int16Array) (t : Q)
         (evs : list (Q * Int16Array)).

(** What one delivery does, whichever branch it takes. *)
Lemma deliver_span a t input :
  exists s,
    spans (snd (deliver a (t, input)))
    = [(s, scheduledTime (fst (deliver a (t, input))))] /\
    t <= s /\ scheduledTime a <= s /\
    scheduledTime (fst (deliver a (t, input)))
    = s + inject_Z (Z.of_nat (length input)) / sampleRate (context a) /\
    sampleRate (context (fst (deliver a (t, input)))) = sampleRate (context a) /\
    Forall (fun v => v <= 0) (underruns (snd (deliver a (t, input)))) /\
    (length (underruns (snd (deliver a (t, input)))) <= 1)%nat.
Proof.
  unfold deliver, push.
  cbn [fst snd at_time context currentTime scheduledTime sampleRate].
  destruct (Qlt_le_dec t (scheduledTime a)) as [Hlt|Hle].
  - exists (scheduledTime a). cbn. repeat split; try lra; auto.
  - exists t. cbn. repeat split; try lra; auto.
    constructor; [lra|constructor].
Qed.

Lemma spans_app out1 out2 : spans (out1 ++ out2) = spans out1 ++ spans out2.
Proof. unfold spans. apply flat_map_app. Qed.

Lemma deliver_rate a ev :
  sampleRate (context (fst (deliver a ev))) = sampleRate (context a).
Proof. unfold deliver. rewrite push_context. reflexivity. Qed.

Lemma deliver_clock_le a ev :
  0 < sampleRate (context a) ->
  scheduledTime a <= scheduledTime (fst (deliver a ev)).
Proof.
  intros Hrate. unfold deliver.
  change (scheduledTime a) with (scheduledTime (at_time (fst ev) a)).
  apply push_clock_le. exact Hrate.
Qed.

Lemma deliveries_clock_le evs a :
  0 < sampleRate (context a) ->
  scheduledTime a <= scheduledTime (fst (deliveries a evs)).
Proof.
  revert a. induction evs as [|ev rest IH]; intros a Hrate.
  - apply Qle_refl.
  - rewrite deliveries_cons. cbn [fst].
    eapply Qle_trans; [apply deliver_clock_le, Hrate|].
    apply IH. rewrite deliver_rate. exact Hrate.
Qed.

(** X1: the sources that a run of deliveries starts never overlap: each one
    begins at or after the end of every one started before it, and all of
    them lie between the clock before the run and the clock after it. *)
Theorem segments_never_overlap a evs :
  0 < sampleRate (context a) ->
  StronglySorted (fun s1 s2 => snd s1 <= fst s2)
                 (spans (snd (deliveries a evs))) /\
  Forall (fun sp => scheduledTime a <= fst sp /\
                    snd sp <= scheduledTime (fst (deliveries a evs)))
         (spans (snd (deliveries a evs))).
Proof.
  revert a. induction evs as [|[t input] rest IH]; intros a Hrate.
  - split; constructor.
  - rewrite deliveries_cons. cbn [fst snd]. rewrite spans_app.
    destruct (deliver_span a t input) as (s & Hsp & _ & Hs & Hc & Hr & _).
    rewrite Hsp. cbn [app].
    assert (Hrate' : 0 < sampleRate (context (fst (deliver a (t, input)))))
      by (rewrite Hr; exact Hrate).
    destruct (IH _ Hrate') as [IHs IHf].
    pose proof (deliveries_clock_le rest _ Hrate') as Hmono.
    pose proof (deliver_clock_le a (t, input) Hrate) as Hstep.
    split.
    + constructor; [exact IHs|].
      eapply List.Forall_impl; [|exact IHf]. cbn. intros sp [H1 _]. exact H1.
    + constructor.
      * cbn [fst snd]. split; [exact Hs|exact Hmono].
      * eapply List.Forall_impl; [|exact IHf]. cbn. intros sp [H1 H2].
        split; [|exact H2]. eapply Qle_trans; eassumption.
Qed.

Lemma segments_never_overlap_witness :
  let a := {| context := {| sampleRate := 11050; currentTime := 0 |};
              scheduledTime := 2 |} in
  let evs := [(1, [0; 0]%Z); (5, [7]%Z); (4, [])] in
  StronglySorted (fun s1 s2 => snd s1 <= fst s2)
                 (spans (snd (deliveries a evs))) /\
  Forall (fun sp => 2 <= fst sp /\
                    snd sp <= scheduledTime (fst (deliveries a evs)))
         (spans (snd (deliveries a evs))).
Proof.
  cbv zeta.
  apply (segments_never_overlap
           {| context := {| sampleRate := 11050; currentTime := 0 |};
              scheduledTime := 2 |}
           [(1, [0; 0]%Z); (5, [7]%Z); (4, [])]).
  reflexivity.
Defined.

(** X2: every delivered segment is started exactly once, in the order of
    delivery, never before the time of its delivery, and for its whole
    length; a warning reports a number that is never positive, and there is
    at most one for each delivery. *)
Theorem every_segment_started_once a evs :
  Forall2 (fun ev sp =>
             fst ev <= fst sp /\
             snd sp = fst sp + inject_Z (Z.of_nat (length (snd ev)))
                               / sampleRate (context a))
          evs (spans (snd (deliveries a evs))) /\
  Forall (fun v => v <= 0) (underruns (snd (deliveries a evs))) /\
  (length (underruns (snd (deliveries a evs))) <= length evs)%nat.
Proof.
  revert a. induction evs as [|[t input] rest IH]; intros a.
  - repeat constructor.
  - rewrite deliveries_cons. cbn [fst snd].
    rewrite spans_app, underruns_app, length_app.
    destruct (deliver_span a t input) as (s & Hsp & Ht & _ & Hc & Hr & Hv & Hn).
    rewrite Hsp. cbn [app length].
    destruct (IH (fst (deliver a (t, input)))) as (IH2 & IHv & IHn).
    rewrite Hr in IH2. split; [|split].
    + constructor; [|exact IH2]. cbn [fst snd]. split; [exact Ht|exact Hc].
    + apply Forall_app. split; assumption.
    + unfold Int16Array in *. lia.
Qed.

(** A delivery before the clock: the source starts at the clock, which
    moves on by the duration, and nothing is signalled. *)
Lemma deliver_on_time a t input :
  t < scheduledTime a ->
  deliver a (t, input)
  = ({| context := context (at_time t a);
        scheduledTime := scheduledTime a
          + inject_Z (Z.of_nat (length input)) / sampleRate (context a) |},
     [Start (scheduledTime a)
        (fill input (createBuffer 1 (length input) (sampleRate (context a))))]).
Proof.
  intros Hlt. unfold deliver, push.
  cbn [fst snd at_time context currentTime scheduledTime sampleRate].
  destruct (Qlt_le_dec t (scheduledTime a)) as [_|Hle]; [reflexivity|].
  exfalso. lra.
Qed.

(** A delivery at or after the clock: the source starts at once, the clock
    is set from [now], and the warning reports the clock minus [now]. *)
Lemma deliver_after_clock a t input :
  scheduledTime a <= t ->
  deliver a (t, input)
  = ({| context := context (at_time t a);
        scheduledTime := t
          + inject_Z (Z.of_nat (length input)) / sampleRate (context a) |},
     [Warn "Audio buffer underrun :(" (scheduledTime a - t);
      Start t (fill input (createBuffer 1 (length input)
                             (sampleRate (context a))))]).
Proof.
  intros Hle. unfold deliver, push.
  cbn [fst snd at_time context currentTime scheduledTime sampleRate].
  destruct (Qlt_le_dec t (scheduledTime a)) as [Hlt|_]; [|reflexivity].
  exfalso. lra.
Qed.

(** X3: while every segment is delivered before the clock, nothing is
    signalled and the sources lie back to back on the timeline: the first
    begins at the clock and each next one exactly where the one before it
    ends. *)
Theorem on_time_segments_back_to_back a evs :
  ahead (scheduledTime a) (sampleRate (context a)) evs ->
  underruns (snd (deliveries a evs)) = [] /\
  back_to_back (scheduledTime a) (spans (snd (deliveries a evs))) /\
  length (spans (snd (deliveries a evs))) = length evs.
Proof.
  revert a. induction evs as [|[t input] rest IH]; intros a Hahead.
  - repeat split.
  - cbn [ahead] in Hahead. destruct Hahead as [Hlt Hrest].
    rewrite deliveries_cons. cbn [fst snd].
    rewrite spans_app, underruns_app, length_app.
    rewrite (deliver_on_time a t input Hlt). cbn [fst snd].
    match goal with |- context [deliveries ?a1 rest] =>
      destruct (IH a1) as (IHu & IHb & IHl); [exact Hrest|] end.
    rewrite IHu, IHl. cbn. repeat split. exact IHb.
Qed.

(** X15: recovery from an underrun. A segment delivered at or after the
    clock starts at once, with one warning that reports the clock minus
    [now]; when the segments after it are again delivered before the clock,
    nothing more is signalled and they follow it back to back. *)
Theorem underrun_recovery a t input evs :
  scheduledTime a <= t ->
  ahead (t + inject_Z (Z.of_nat (length input)) / sampleRate (context a))
        (sampleRate (context a)) evs ->
  underruns (snd (deliveries a ((t, input) :: evs))) = [scheduledTime a - t] /\
  back_to_back t (spans (snd (deliveries a ((t, input) :: evs)))) /\
  length (spans (snd (deliveries a ((t, input) :: evs)))) = S (length evs).
Proof.
  intros Hlate Hahead.
  assert (Htail : forall rest a1,
            ahead (scheduledTime a1) (sampleRate (context a1)) rest ->
            underruns (snd (deliveries a1 rest)) = [] /\
            back_to_back (scheduledTime a1) (spans (snd (deliveries a1 rest))) /\
            length (spans (snd (deliveries a1 rest))) = length rest).
  { induction rest as [|[t1 input1] rest IH]; intros a1 Ha1.
    - repeat split.
    - cbn [ahead] in Ha1. destruct Ha1 as [Hlt Hrest].
      rewrite deliveries_cons. cbn [fst snd].
      rewrite spans_app, underruns_app, length_app.
      rewrite (deliver_on_time a1 t1 input1 Hlt). cbn [fst snd].
      match goal with |- context [deliveries ?a2 rest] =>
        destruct (IH a2) as (IHu & IHb & IHl); [exact Hrest|] end.
      rewrite IHu, IHl. cbn. repeat split. exact IHb. }
  rewrite deliveries_cons. cbn [fst snd].
  rewrite spans_app, underruns_app, length_app.
  rewrite (deliver_after_clock a t input Hlate). cbn [fst snd].
  match goal with |- context [deliveries ?a1 evs] =>
    destruct (Htail evs a1) as (Hu & Hb & Hl); [exact Hahead|] end.
  rewrite Hu, Hl. cbn. repeat split. exact Hb.
Qed.

Lemma underrun_recovery_witness :
  let a := {| context := {| sampleRate := 11050; currentTime := 0 |};
              scheduledTime := 2 |} in
  let evs := [(3, [7]%Z); (3, [8; 9]%Z)] in
  underruns (snd (deliveries a ((3, [0; 0]%Z) :: evs))) = [2 - 3] /\
  back_to_back 3 (spans (snd (deliveries a ((3, [0; 0]%Z) :: evs)))) /\
  length (spans (snd (deliveries a ((3, [0; 0]%Z) :: evs)))) = 3%nat.
Proof.
  cbv zeta.
  apply (underrun_recovery
           {| context := {| sampleRate := 11050; currentTime := 0 |};
              scheduledTime := 2 |}
           3 [0; 0]%Z [(3, [7]%Z); (3, [8; 9]%Z)]).
  - cbv; discriminate.
  - cbn. split; [reflexivity|]. split; [reflexivity|exact I].
Defined.

(** X16: an odd number of audio bytes makes the relay throw before
    anything is sent; for an even number the array relayed holds one sample
    for every two bytes, and [push] starts for it one source whose buffer
    holds as many playback samples, each in [-1/2, 1/2). *)
Theorem relayed_audio_in_range (bytes : list Z) a :
  (Nat.Odd (length bytes) -> Int16Array_of_bytes bytes = None) /\
  (Nat.Even (length bytes) ->
   exists samples when buffer,
     Int16Array_of_bytes bytes = Some samples /\
     length samples = (length bytes / 2)%nat /\
     sources (snd (push samples a)) = [(when, buffer)] /\
     buffer_length buffer = (length bytes / 2)%nat /\
     length (channelData buffer) = (length bytes / 2)%nat /\
     Forall (fun x => -(1#2) <= x /\ x < 1#2) (channelData buffer)).
Proof.
  pose proof (Int16Array_of_bytes_spec bytes) as Hspec.
  destruct (Int16Array_of_bytes bytes) as [samples|].
  - destruct Hspec as (Heven & Hlen & Hall). split.
    + intros Hodd. exfalso. exact (Nat.Even_Odd_False _ Heven Hodd).
    + intros _.
      assert (Hrange : Forall (fun x => -(1#2) <= x /\ x < 1#2)
                              (map sample_of samples)).
      { clear Hlen. induction Hall as [|s rest Hs _ IH]; cbn [map]; constructor.
        - apply sample_of_range in Hs. tauto.
        - exact IH. }
      unfold push. destruct (Qlt_le_dec _ _); cbn [snd sources flat_map app];
        (eexists samples, _, _; split; [reflexivity|]; split; [exact Hlen|];
         split; [reflexivity|]; cbn; rewrite length_map;
         split; [exact Hlen|]; split; [exact Hlen|exact Hrange]).
  - split; [reflexivity|].
    intros Heven. exfalso. exact (Nat.Even_Odd_False _ Heven Hspec).
Qed.

Lemma relayed_audio_in_range_witness :
  Int16Array_of_bytes [0; 128; 255]%Z = None /\
  exists samples when buffer,
    Int16Array_of_bytes [0; 128; 255; 127]%Z = Some samples /\
    length samples = (4 / 2)%nat /\
    sources (snd (push samples (NESAudio_new 0))) = [(when, buffer)] /\
    buffer_length buffer = (4 / 2)%nat /\
    length (channelData buffer) = (4 / 2)%nat /\
    Forall (fun x => -(1#2) <= x /\ x < 1#2) (channelData buffer).
Proof.
  split.
  - apply (relayed_audio_in_range [0; 128; 255]%Z (NESAudio_new 0)).
    exists 1%nat. reflexivity.
  - apply (relayed_audio_in_range [0; 128; 255; 127]%Z (NESAudio_new 0)).
    exists 2%nat. reflexivity.
Defined.

Lemma on_time_segments_back_to_back_witness :
  let a := {| context := {| sampleRate := 11050; currentTime := 0 |};
              scheduledTime := 5 |} in
  let evs := [(1, [0; 0]%Z); (2, [7]%Z)] in
  underruns (snd (deliveries a evs)) = [] /\
  back_to_back 5 (spans (snd (deliveries a evs))) /\
  length (spans (snd (deliveries a evs))) = 2%nat.
Proof.
  cbv zeta.
  apply (on_time_segments_back_to_back
           {| context := {| sampleRate := 11050; currentTime := 0 |};
              scheduledTime := 5 |}
           [(1, [0; 0]%Z); (2, [7]%Z)]).
  cbn. split; [reflexivity|]. split; [reflexivity|exact I].
Defined.

End AudioTimeline.

(* ================================================================== *)
(** * Further properties of the page                                   *)
(* ================================================================== *)

Section PlayerAndCounter.

Import Page.
Local Open Scope Q_scope.

(** X4: while the audio checkbox is off, relayed audio is dropped: no
    source is started, nothing is signalled, and the scheduler, made or
    not, stays as it was. *)
Theorem muted_player_starts_nothing (s : Player) (evs : list Event) :
  audioEnabled s = false ->
  Forall (fun e => e <> Click true) evs ->
  handles_out s evs = [] /\ nesAudio (handles s evs) = nesAudio s /\
  audioEnabled (handles s evs) = false.
Proof.
  intros Hoff Hall. revert s Hoff.
  induction Hall as [|e rest He _ IH]; intros s Hoff.
  - repeat split. exact Hoff.
  - cbn [handles_out handles].
    assert (Hstep : snd (handle s e) = [] /\
                    nesAudio (fst (handle s e)) = nesAudio s /\
                    audioEnabled (fst (handle s e)) = false).
    { destruct e as [[|]|now bytes|bytes]; cbn [handle fst snd].
      - exfalso. apply He. reflexivity.
      - repeat split.
      - unfold playAudio. rewrite Hoff. repeat split. exact Hoff.
      - repeat split. exact Hoff. }
    destruct Hstep as (Hout & Hsame & Hoff').
    destruct (IH _ Hoff') as (IHout & IHsame & IHoff).
    rewrite Hout, IHout, IHsame, Hsame. repeat split. exact IHoff.
Qed.

Lemma muted_player_starts_nothing_witness :
  let evs := [PlayAudio 0 [1; 2]%Z; Render []; Click false; PlayAudio 3 [4]%Z] in
  handles_out (Player_new false) evs = [] /\
  nesAudio (handles (Player_new false) evs) = None /\
  audioEnabled (handles (Player_new false) evs) = false.
Proof.
  cbv zeta.
  apply (muted_player_starts_nothing (Player_new false)
           [PlayAudio 0 [1; 2]%Z; Render []; Click false; PlayAudio 3 [4]%Z]).
  - reflexivity.
  - repeat constructor; discriminate.
Defined.

Lemma filter_all {A} (f : A -> bool) (l : list A) :
  Forall (fun x => f x = true) l -> List.filter f l = l.
Proof.
  induction 1 as [|x l Hx _ IH]; cbn [List.filter]; [reflexivity|].
  rewrite Hx, IH. reflexivity.
Qed.

Lemma filter_narrow {A} (f g : A -> bool) (l : list A) :
  (forall x, f x = true -> g x = true) ->
  List.filter f (List.filter g l) = List.filter f l.
Proof.
  intros Hfg. induction l as [|x l IH]; cbn [List.filter]; [reflexivity|].
  destruct (g x) eqn:Hg; cbn [List.filter].
  - rewrite IH. reflexivity.
  - destruct (f x) eqn:Hf; [|exact IH].
    rewrite (Hfg x Hf) in Hg. discriminate Hg.
Qed.

Lemma Forall_filter_keep {A} (P : A -> Prop) (f : A -> bool) (l : list A) :
  Forall P l -> Forall P (List.filter f l).
Proof.
  induction 1 as [|x l Hx _ IH]; cbn [List.filter]; [constructor|].
  destruct (f x); [constructor; assumption|exact IH].
Qed.

Lemma StronglySorted_filter_keep (f : Q -> bool) (l : list Q) :
  StronglySorted Qle l -> StronglySorted Qle (List.filter f l).
Proof.
  induction 1 as [|x l _ IH Hall]; cbn [List.filter]; [constructor|].
  destruct (f x); [|exact IH].
  constructor; [exact IH|]. apply Forall_filter_keep, Hall.
Qed.

Lemma StronglySorted_snoc (l : list Q) (x : Q) :
  StronglySorted Qle (l ++ [x]) <->
  StronglySorted Qle l /\ Forall (fun y => y <= x) l.
Proof.
  induction l as [|y l IH]; cbn [app].
  - split; [intros _; split; constructor|intros _; repeat constructor].
  - split.
    + intros H. inversion H as [|? ? Hs Hall]; subst.
      apply IH in Hs as [Hs Hle]. apply Forall_app in Hall as [Hall Hx].
      inversion Hx; subst. split; constructor; assumption.
    + intros [H Hle]. inversion H as [|? ? Hs Hall]; subst.
      inversion Hle as [|? ? Hyx Hle']; subst.
      constructor; [apply IH; split; assumption|].
      apply Forall_app. split; [exact Hall|]. constructor; [exact Hyx|constructor].
Qed.

Lemma in_last_second_narrow (x now t : Q) :
  x <= now -> in_last_second now t = true -> in_last_second x t = true.
Proof.
  unfold in_last_second. intros Hx Hnow.
  apply negb_true_iff in Hnow. apply negb_true_iff.
  destruct (Qle_bool t (x - 1000)) eqn:Hle; [|reflexivity].
  apply Qle_bool_iff in Hle.
  assert (Hle' : t <= now - 1000) by lra.
  apply Qle_bool_iff in Hle'. congruence.
Qed.

(** On times in order, the loop of [tick] keeps exactly the times of the
    last second. *)
Lemma shift_expired_sorted (now : Q) (ts : list Q) :
  StronglySorted Qle ts ->
  shift_expired now ts = List.filter (in_last_second now) ts.
Proof.
  induction 1 as [|t rest _ IH Hall]; cbn [shift_expired List.filter];
    [reflexivity|].
  unfold in_last_second at 1. destruct (Qle_bool t (now - 1000)) eqn:Hle;
    cbn [negb]; [exact IH|].
  f_equal. symmetry. apply filter_all.
  eapply List.Forall_impl; [|exact Hall]. cbn. intros x Htx.
  unfold in_last_second. apply negb_true_iff.
  destruct (Qle_bool x (now - 1000)) eqn:Hx; [|reflexivity].
  apply Qle_bool_iff in Hx.
  assert (Ht : t <= now - 1000) by lra.
  apply Qle_bool_iff in Ht. congruence.
Qed.

Lemma ticks_snoc (c : FpsCounter) (nows : list Q) (x : Q) :
  ticks c (nows ++ [x]) = snd (tick x (ticks c nows)).
Proof. unfold ticks. rewrite fold_left_app. reflexivity. Qed.

Lemma now_in_last_second (now : Q) : in_last_second now now = true.
Proof.
  unfold in_last_second. apply negb_true_iff.
  destruct (Qle_bool now (now - 1000)) eqn:H; [|reflexivity].
  apply Qle_bool_iff in H. exfalso. lra.
Qed.

(** After ticks in order, the counter holds, in order, the ticks of the
    second that ends at the last of them. *)
Lemma ticks_times (earlier : list Q) (now : Q) :
  StronglySorted Qle (earlier ++ [now]) ->
  times (ticks FpsCounter_new (earlier ++ [now]))
  = List.filter (in_last_second now) (earlier ++ [now]).
Proof.
  revert now. induction earlier as [|x h IH] using rev_ind; intros now Hsorted.
  - cbn. rewrite now_in_last_second. reflexivity.
  - rewrite ticks_snoc. cbn [tick snd times].
    apply StronglySorted_snoc in Hsorted as [Hs Hle].
    rewrite (IH x Hs).
    rewrite shift_expired_sorted by (apply StronglySorted_filter_keep, Hs).
    assert (Hx : x <= now).
    { apply Forall_app in Hle as [_ Hx]. inversion Hx; assumption. }
    rewrite filter_narrow by (intros t; apply in_last_second_narrow, Hx).
    rewrite (List.filter_app _ (h ++ [x]) [now]). cbn [List.filter].
    rewrite now_in_last_second. reflexivity.
Qed.

(** X5: when [performance.now()] never goes back, what [tick] returns is
    the number of ticks, this one included, in the last 1000 milliseconds:
    those at a time after [now - 1000]; it is never 0. *)
Theorem fps_counts_last_second (earlier : list Q) (now : Q) :
  StronglySorted Qle (earlier ++ [now]) ->
  fst (tick now (ticks FpsCounter_new earlier))
  = length (List.filter (in_last_second now) (earlier ++ [now])) /\
  (1 <= fst (tick now (ticks FpsCounter_new earlier)))%nat.
Proof.
  intros Hsorted.
  assert (Hlen : fst (tick now (ticks FpsCounter_new earlier))
                 = length (times (ticks FpsCounter_new (earlier ++ [now])))).
  { rewrite ticks_snoc. reflexivity. }
  split.
  - rewrite Hlen, ticks_times by exact Hsorted. reflexivity.
  - cbn [tick fst]. rewrite length_app. cbn [length]. lia.
Qed.

Lemma fps_counts_last_second_witness :
  fst (tick 1600 (ticks FpsCounter_new [0; 500; 1200]))
  = length (List.filter (in_last_second 1600) ([0; 500; 1200] ++ [1600])) /\
  (1 <= fst (tick 1600%Q (ticks FpsCounter_new [0; 500; 1200]%Q)))%nat.
Proof.
  apply (fps_counts_last_second [0; 500; 1200] 1600).
  repeat constructor; cbv; discriminate.
Defined.

End PlayerAndCounter.

Section ProgressDisplay.

Import Page Worker.
Local Open Scope string_scope.

Implicit Types (p : LoadProgress) (l : list ProgressInput) (pf : Platform).

Lemma display_from_snoc l i p :
  fold_left (fun p i => on_progress i p) (l ++ [i])%list p
  = on_progress i (fold_left (fun p i => on_progress i p) l p).
Proof. rewrite fold_left_app. reflexivity. Qed.

(** X6: whatever stream the page handles, the progress bar is hidden from
    the first [Done] or [Error] on, the message from the first [Done] on,
    and neither is ever shown again; the maximum of the bar is never
    changed. *)
Theorem display_hidden_exactly_when l p :
  let p' := fold_left (fun p i => on_progress i p) l p in
  progress_hidden p' = progress_hidden p || existsb is_terminal l /\
  message_hidden p' = message_hidden p || existsb is_done l /\
  progress_max p' = progress_max p.
Proof.
  cbv zeta. revert p. induction l as [|i l IH]; intros p; cbn [fold_left existsb].
  - rewrite !orb_false_r. repeat split.
  - destruct (IH (on_progress i p)) as (H1 & H2 & H3).
    rewrite H1, H2, H3.
    destruct i; cbn; repeat split;
      rewrite ?orb_true_r, ?orb_true_l, ?orb_false_l; reflexivity.
Qed.

(** X7: when a call of the startup phase throws, the page ends up showing
    the message "Failed to initialize Optcarrot: " with what was thrown, in
    a message element that is not hidden, with the progress bar hidden. *)
Theorem failed_startup_shows_error pf (e : string) :
  first_failure (startup_calls pf) = Some e ->
  message_innerText (display (delivered (session pf)))
  = "Failed to initialize Optcarrot: " ++ e /\
  message_hidden (display (delivered (session pf))) = false /\
  progress_hidden (display (delivered (session pf))) = true.
Proof.
  intros Hfail. pose proof (session_cases pf) as Hcases.
  rewrite Hfail in Hcases. destruct Hcases as (_ & _ & n & Hn & ->).
  do 9 (destruct n as [|n]; [repeat split|]). lia.
Qed.

Lemma failed_startup_shows_error_witness :
  message_innerText (display (delivered (session (Platform_bad_binary "CompileError"))))
  = "Failed to initialize Optcarrot: " ++ "CompileError" /\
  message_hidden (display (delivered (session (Platform_bad_binary "CompileError")))) = false /\
  progress_hidden (display (delivered (session (Platform_bad_binary "CompileError")))) = true.
Proof.
  apply (failed_startup_shows_error (Platform_bad_binary "CompileError")).
  reflexivity.
Defined.

(** X8: when every call of the startup phase returns, the page ends up with
    the progress bar at 1 and both the bar and the message hidden, however
    the run of the emulator ends; so what a run that throws reports is
    written into a hidden element. *)
Theorem finished_startup_hides_display pf :
  startup_ok pf = true ->
  progress_value (display (delivered (session pf))) = 1%Q /\
  progress_hidden (display (delivered (session pf))) = true /\
  message_hidden (display (delivered (session pf))) = true /\
  (forall e, eval_NES_run pf = RunThrows e ->
     message_innerText (display (delivered (session pf)))
     = "Failed to initialize Optcarrot: " ++ e).
Proof.
  intros Hok. pose proof (session_cases pf) as Hcases.
  destruct (first_failure (startup_calls pf)) as [e|].
  - destruct Hcases as (Hbad & _). rewrite Hbad in Hok. discriminate Hok.
  - destruct Hcases as (_ & _ & ->).
    destruct (eval_NES_run pf) as [|e|]; repeat split;
      intros e' He'; try discriminate He'.
    injection He' as <-. reflexivity.
Qed.

Lemma finished_startup_hides_display_witness :
  progress_value (display (delivered (session (Platform_ok (RunThrows "x"))))) = 1%Q /\
  progress_hidden (display (delivered (session (Platform_ok (RunThrows "x"))))) = true /\
  message_hidden (display (delivered (session (Platform_ok (RunThrows "x"))))) = true /\
  message_innerText (display (delivered (session (Platform_ok (RunThrows "x")))))
  = "Failed to initialize Optcarrot: " ++ "x".
Proof.
  destruct (finished_startup_hides_display (Platform_ok (RunThrows "x")) eq_refl)
    as (H1 & H2 & H3 & H4).
  split; [exact H1|]. split; [exact H2|]. split; [exact H3|].
  apply H4. reflexivity.
Defined.

(** X9: in every session, failed or not, the values of the progress events
    go strictly up, from 0 and never past 1: the bar never moves back. *)
Theorem progress_values_increase pf :
  StronglySorted Qlt (progress_values (delivered (session pf))) /\
  Forall (fun v => (0 <= v <= 1)%Q) (progress_values (delivered (session pf))).
Proof.
  pose proof (session_cases pf) as Hcases.
  destruct (first_failure (startup_calls pf)) as [e|].
  - destruct Hcases as (_ & _ & n & Hn & ->).
    do 9 (destruct n as [|n];
          [split; repeat constructor; cbv; discriminate|]).
    lia.
  - destruct Hcases as (_ & _ & ->).
    destruct (eval_NES_run pf); split; repeat constructor; cbv; discriminate.
Qed.

(** X10: with startup calls that each return or throw, the emulator is run
    exactly when every one of them returned, and exactly then has [Done]
    been delivered; and the exposed [init] never throws to its caller. *)
Theorem run_entered_exactly_after_done pf :
  tick_loop_started (session pf) = startup_ok pf /\
  existsb is_done (delivered (session pf)) = startup_ok pf /\
  (forall e, fst (init pf World_new) <> Raised e).
Proof.
  pose proof (session_cases pf) as Hcases.
  assert (Hquiet : forall e, fst (init pf World_new) <> Raised e).
  { intros e. rewrite init_outer_handler_idle. unfold try_catch.
    destruct (App_init pf World_new) as [[[]|e'|] w']; cbn; discriminate. }
  destruct (first_failure (startup_calls pf)) as [e|].
  - destruct Hcases as (-> & -> & n & Hn & ->).
    split; [reflexivity|]. split; [|exact Hquiet].
    do 9 (destruct n as [|n]; [reflexivity|]). lia.
  - destruct Hcases as (-> & -> & ->).
    split; [reflexivity|]. split; [|exact Hquiet].
    destruct (eval_NES_run pf); reflexivity.
Qed.

End ProgressDisplay.

Section KeysAndBootstrap.

Import Page.
Local Open Scope string_scope.

(** Decides every comparison of [padCodeFromCode] in turn. *)
Local Ltac by_key key :=
  repeat match goal with
         | |- context [String.eqb key ?s] =>
             destruct (String.eqb_spec key s) as [->|?]
         end.

(** X11: [padCodeFromCode] maps the keys it knows to the codes 0 to 7, one
    key for each code: two keys with the same code are the same key. *)
Theorem padCodeFromCode_codes (key1 key2 : string) (c : Z) :
  padCodeFromCode key1 = Some c ->
  (0 <= c <= 7)%Z /\ (padCodeFromCode key2 = Some c -> key1 = key2).
Proof.
  unfold padCodeFromCode at 1. by_key key1; intros H; try discriminate H;
    injection H as <-; (split; [lia|]);
    unfold padCodeFromCode; by_key key2; intros H; try discriminate H;
    reflexivity.
Qed.

Lemma padCodeFromCode_codes_witness :
  (0 <= 6 <= 7)%Z /\ (padCodeFromCode "ArrowLeft" = Some 6%Z -> "ArrowLeft" = "ArrowLeft").
Proof.
  apply (padCodeFromCode_codes "ArrowLeft" "ArrowLeft" 6). reflexivity.
Defined.

(** X12: one load of the page ends in one of four ways and never in two:
    [play] is called, once and with the page's own address, exactly when
    service workers are supported, the registration succeeded and calls for
    no reload, and [SharedArrayBuffer] is defined; a reload is asked for
    exactly when the registration succeeded with an active worker that does
    not control the page; and neither happens together with an error on the
    display. *)
Theorem bootstrap_outcomes (h : Host) (p : LoadProgress) :
  let out := snd (bootstrap h p) in
  let ready :=
    serviceWorker_in_navigator h &&
    match registration h with
    | Registered active _ => negb (active && negb (controller h))
    | Rejected _ => false
    end in
  let reloads :=
    serviceWorker_in_navigator h &&
    match registration h with
    | Registered active _ => active && negb (controller h)
    | Rejected _ => false
    end in
  plays out = (if ready && SharedArrayBuffer_defined h then [location h] else []) /\
  (In Reload out <-> reloads = true) /\
  (In Reload out -> plays out = [] /\ fst (bootstrap h p) = p) /\
  (plays out <> [] ->
   fst (bootstrap h p) = log "Initializing Optcarrot..." p).
Proof.
  cbv zeta. unfold bootstrap.
  destruct (serviceWorker_in_navigator h);
    [destruct (registration h) as [active scope|err];
     [destruct (active && negb (controller h));
      [|destruct (SharedArrayBuffer_defined h)]|]|];
    cbn; intuition (try discriminate; try congruence).
Qed.

Lemma bootstrap_outcomes_witness :
  let h := {| serviceWorker_in_navigator := true;
              registration := Registered true "/";
              controller := false;
              SharedArrayBuffer_defined := true;
              location := {| searchParams := [] |} |} in
  plays (snd (bootstrap h LoadProgress_new)) = [] /\
  fst (bootstrap h LoadProgress_new) = LoadProgress_new.
Proof.
  cbv zeta.
  destruct (bootstrap_outcomes
              {| serviceWorker_in_navigator := true;
                 registration := Registered true "/";
                 controller := false;
                 SharedArrayBuffer_defined := true;
                 location := {| searchParams := [] |} |}
              LoadProgress_new) as (_ & Hiff & Hreload & _).
  apply Hreload. apply Hiff. reflexivity.
Defined.

End KeysAndBootstrap.

(* ================================================================== *)
(** * Properties of the Ruby drivers                                   *)
(* ================================================================== *)

Section Drivers.

Import KeyEventBus Driver.

Lemma byte_cases (P : Z -> bool) :
  forallb (fun n => P (Z.of_nat n)) (seq 0 256) = true ->
  forall c, is_byte c -> P c = true.
Proof.
  intros Hall c [Hlo Hhi]. rewrite forallb_forall in Hall.
  specialize (Hall (Z.to_nat c)). rewrite Z2Nat.id in Hall by exact Hlo.
  apply Hall. apply in_seq. lia.
Qed.

Lemma decimal_comma_free (c : Z) : is_byte c -> comma_free (decimal c) = true.
Proof. apply (byte_cases (fun c => comma_free (decimal c))). vm_compute. reflexivity. Qed.

Lemma read_digits_decimal (c : Z) : is_byte c -> read_digits 0 (decimal c) = c.
Proof.
  intros Hc. apply Z.eqb_eq.
  apply (byte_cases (fun c => (read_digits 0 (decimal c) =? c)%Z)); [|exact Hc].
  vm_compute. reflexivity.
Qed.

Local Open Scope string_scope.

Lemma append_assoc_string (a b c : string) : (a ++ b) ++ c = a ++ (b ++ c).
Proof. induction a as [|x a IH]; cbn; [reflexivity|]. rewrite IH. reflexivity. Qed.

Lemma append_empty_r (a : string) : a ++ "" = a.
Proof. induction a as [|x a IH]; cbn; [reflexivity|]. rewrite IH. reflexivity. Qed.

Lemma split_commas_last (field b : string) :
  comma_free b = true -> split_commas field b = [field ++ b].
Proof.
  revert field. induction b as [|x b IH]; intros field Hb; cbn [split_commas].
  - rewrite append_empty_r. reflexivity.
  - cbn [comma_free] in Hb. apply andb_true_iff in Hb as [Hx Hb].
    apply negb_true_iff in Hx. rewrite Hx, (IH _ Hb), append_assoc_string.
    reflexivity.
Qed.

Lemma split_commas_pair (field a b : string) :
  comma_free a = true -> comma_free b = true ->
  split_commas field (a ++ "," ++ b) = [field ++ a; b].
Proof.
  revert field. induction a as [|x a IH]; intros field Ha Hb.
  - cbn [append split_commas]. rewrite Ascii.eqb_refl, append_empty_r.
    rewrite (split_commas_last "" b Hb). reflexivity.
  - cbn [comma_free] in Ha. apply andb_true_iff in Ha as [Hx Ha].
    apply negb_true_iff in Hx.
    change ((String x a) ++ "," ++ b) with (String x (a ++ "," ++ b)).
    cbn [split_commas]. rewrite Hx, (IH _ Ha Hb), append_assoc_string.
    reflexivity.
Qed.

Lemma join_not_empty (a b : string) : String.eqb (a ++ "," ++ b) "" = false.
Proof. destruct a; reflexivity. Qed.

(** X13: for a [split] and a [to_i] that do on the strings of
    [fetchKeyEvent] what Ruby's do (a string with one comma splits into its
    two sides; the numeral of a byte reads as that byte), the input driver
    turns the string of every fetched event back into the event: [keydown]
    of pad 0 with the code for a press, [keyup] of pad 0 with the code for a
    release, and nothing for the empty string. *)
Theorem driver_decodes_fetched_event
    (split : string -> list string) (to_i : string -> Z)
    (c : Z) (pressed : bool) :
  (forall a b, comma_free a = true -> comma_free b = true -> b <> "" ->
               split (a ++ "," ++ b) = [a; b]) ->
  (forall n, is_byte n -> to_i (decimal n) = n) ->
  is_byte c ->
  tick split to_i (join (c, pressed))
  = [if pressed then keydown 0 c else keyup 0 c] /\
  tick split to_i "" = [].
Proof.
  intros Hsplit Hto_i Hc. split; [|reflexivity].
  unfold tick, join. cbn [fst snd]. fold (decimal c).
  rewrite join_not_empty.
  rewrite Hsplit;
    [|apply decimal_comma_free, Hc
     |destruct pressed; reflexivity
     |destruct pressed; discriminate].
  cbn [nth_error]. rewrite (Hto_i c Hc).
  destruct pressed; reflexivity.
Qed.

Lemma driver_decodes_fetched_event_witness :
  tick (split_commas "") (read_digits 0) (join (7%Z, false)) = [keyup 0 7] /\
  tick (split_commas "") (read_digits 0) "" = [].
Proof.
  apply (driver_decodes_fetched_event (split_commas "") (read_digits 0) 7 false).
  - intros a b Ha Hb _. apply (split_commas_pair "" a b Ha Hb).
  - exact read_digits_decimal.
  - split; lia.
Defined.

Local Open Scope Z_scope.

(** A field shifted above a smaller one joins it without carry. *)
Lemma lor_shiftl_add (hi lo k : Z) :
  0 <= k -> 0 <= lo < 2 ^ k -> Z.lor (Z.shiftl hi k) lo = hi * 2 ^ k + lo.
Proof.
  intros Hk Hlo.
  assert (Hdisjoint : Z.land (Z.shiftl hi k) lo = 0).
  { apply Z.bits_inj'. intros n Hn. rewrite Z.land_spec, Z.bits_0.
    destruct (Z.lt_ge_cases n k) as [Hnk|Hnk].
    - rewrite Z.shiftl_spec_low by exact Hnk. reflexivity.
    - destruct (Z.eq_dec lo 0) as [->|Hne].
      + rewrite Z.bits_0. apply andb_false_r.
      + rewrite (Z.bits_above_log2 lo n); [apply andb_false_r|lia|].
        assert (Z.log2 lo < k) by (apply Z.log2_lt_pow2; lia). lia. }
  rewrite <- Z.lxor_lor, <- Z.add_nocarry_lxor by exact Hdisjoint.
  rewrite Z.shiftl_mul_pow2 by exact Hk. reflexivity.
Qed.

Lemma palette_entry_sum (r g b : Z) :
  is_byte r -> is_byte g -> is_byte b ->
  palette_entry r g b = 4278190080 + b * 65536 + g * 256 + r.
Proof.
  unfold is_byte, palette_entry. intros Hr Hg Hb.
  rewrite (lor_shiftl_add g r 8) by lia.
  rewrite (lor_shiftl_add b (g * 2 ^ 8 + r) 16) by lia.
  change 4278190080 with (Z.shiftl 255 24).
  rewrite (lor_shiftl_add 255 (b * 2 ^ 16 + (g * 2 ^ 8 + r)) 24) by lia.
  change (2 ^ 8) with 256. change (2 ^ 16) with 65536.
  change (2 ^ 24) with 16777216. change (Z.shiftl 255 24) with 4278190080.
  lia.
Qed.

(** X14: the palette entry that the video driver makes of a colour is
    written by [pack("L*")] as the four bytes red, green, blue and 255: read
    back as a pixel of the canvas it is the same colour, fully opaque. *)
Theorem palette_entry_is_opaque_rgba (r g b : Z) :
  is_byte r -> is_byte g -> is_byte b ->
  pack_L (palette_entry r g b) = [r; g; b; 255].
Proof.
  intros Hr Hg Hb. rewrite (palette_entry_sum r g b Hr Hg Hb).
  unfold is_byte in *. unfold pack_L. cbv zeta.
  rewrite (Z.mod_small (4278190080 + b * 65536 + g * 256 + r) 4294967296) by lia.
  repeat f_equal.
  - Z.div_mod_to_equations. lia.
  - Z.div_mod_to_equations. lia.
  - Z.div_mod_to_equations. lia.
  - Z.div_mod_to_equations. lia.
Qed.

Lemma palette_entry_is_opaque_rgba_witness :
  pack_L (palette_entry 18 52 86) = [18; 52; 86; 255].
Proof.
  apply (palette_entry_is_opaque_rgba 18 52 86); split; lia.
Defined.

End Drivers.
